(** * A calibrated camera view: [datasets/image.py]

    Shallow embedding of the [Image] class (pinhole camera K, R, T with a
    colour bitmap, a depth raster and a validity mask) and of the helpers
    [_rescale] and [_pad], followed by the properties of the geometric
    operations.

    Numbers.  A tensor element or Python float is modelled by the value it
    carries: an exact rational, one of the two infinities, or NaN.  Python's
    scalar [float] arithmetic (used by [scale] before it truncates to an
    integer size) and every explicit dtype conversion ([.float()],
    [.to(dtype)], [dtype=...]) round to nearest-even in the target binary
    format.

    The runtime's tensor arithmetic ([@], [inverse], [*], [-], [+], [/] and
    the weights of [F.interpolate]) is an idealisation: it is computed on the
    exact values, with the IEEE rules for infinities and NaN.  The source
    does not fix how the runtime rounds these operations (order of
    summation, fused multiply-add, the factorisation behind [inverse]), so
    no property below states a computed entry unless every such evaluation
    gives it: the propagation of NaN, the sign of a sum of non-negative
    terms, a sum that is rounded once.  What the operations accept (dtypes,
    extents, indices) and what they raise is modelled as the runtime has it.

    Tensors.  A raster is its dtype, its shape and the function from indices
    to elements; a [[2, N]] or [[3, N]] batch of points is the list of its
    [N] columns; the camera matrices are 3 x 3 and 3 x 1 tuples.

    Errors.  Every operation that can raise returns a [Py.result].

    The accessors [hwc] and [orishape] take no part in the properties below
    and are left out. *)

From Stdlib Require Import ZArith QArith Qround Qabs Qpower Lia Lqa List Bool.
From Stdlib Require Import Floats.SpecFloat.
Import ListNotations.

Set Implicit Arguments.

(** ** Python exceptions and the error monad *)

Module Py.

Inductive exn : Set :=
| ZeroDivisionError
| OverflowError
| ValueError
| AssertionError
| IndexError
| RuntimeError.

Inductive result (A : Type) : Type :=
| Ok (a : A)
| Raise (e : exn).

Arguments Ok {A} a.
Arguments Raise {A} e.

Definition bind {A B : Type} (m : result A) (k : A -> result B) : result B :=
  match m with
  | Ok a => k a
  | Raise e => Raise e
  end.

Definition assert (b : bool) : result unit :=
  if b then Ok tt else Raise AssertionError.

End Py.

Import Py.

Declare Scope py_scope.
Delimit Scope py_scope with py.
Notation "x <- m ;; k" := (Py.bind m (fun x => k))
  (at level 61, m at next level, right associativity) : py_scope.
Notation "m ;;; k" := (Py.bind m (fun _ => k))
  (at level 61, right associativity) : py_scope.
Open Scope py_scope.

(** ** Floating-point values *)

Module Float.

Local Open Scope Q_scope.

Inductive fval : Set :=
| Num (q : Q)
| PosInf
| NegInf
| NaN.

Definition zero : fval := Num 0.
Definition one : fval := Num 1.
Definition of_Z (z : Z) : fval := Num (inject_Z z).

Definition isfinite (v : fval) : bool :=
  match v with Num _ => true | _ => false end.

(** IEEE comparisons: every comparison with NaN is false. *)
Definition le (a b : fval) : bool :=
  match a, b with
  | NaN, _ | _, NaN => false
  | NegInf, _ => true
  | _, PosInf => true
  | Num p, Num q => Qle_bool p q
  | _, _ => false
  end.

Definition lt (a b : fval) : bool :=
  match a, b with
  | NaN, _ | _, NaN => false
  | PosInf, _ => false
  | _, NegInf => false
  | Num p, Num q => negb (Qle_bool q p)
  | _, _ => true
  end.

Definition ge (a b : fval) : bool := le b a.
Definition gt (a b : fval) : bool := lt b a.

(** Equality of the values carried (two NaNs count as the same datum, two
    representations of one rational as the same number). *)
Definition same (a b : fval) : Prop :=
  match a, b with
  | Num p, Num q => p == q
  | PosInf, PosInf | NegInf, NegInf | NaN, NaN => True
  | _, _ => False
  end.

Definition sameb (a b : fval) : bool :=
  match a, b with
  | Num p, Num q => Qeq_bool p q
  | PosInf, PosInf | NegInf, NegInf | NaN, NaN => true
  | _, _ => false
  end.

Definition is_zero (v : fval) : bool :=
  match v with Num q => Qeq_bool q 0 | _ => false end.

(** Sign of a value that is not NaN: [true] for negative. *)
Definition negative (v : fval) : bool :=
  match v with
  | Num q => negb (Qle_bool 0 q)
  | NegInf => true
  | _ => false
  end.

Definition inf (neg : bool) : fval := if neg then NegInf else PosInf.

Definition opp (a : fval) : fval :=
  match a with
  | Num q => Num (- q)
  | PosInf => NegInf
  | NegInf => PosInf
  | NaN => NaN
  end.

Definition add (a b : fval) : fval :=
  match a, b with
  | NaN, _ | _, NaN => NaN
  | Num p, Num q => Num (p + q)
  | PosInf, NegInf | NegInf, PosInf => NaN
  | PosInf, _ | _, PosInf => PosInf
  | NegInf, _ | _, NegInf => NegInf
  end.

Definition sub (a b : fval) : fval := add a (opp b).

Definition mul (a b : fval) : fval :=
  match a, b with
  | NaN, _ | _, NaN => NaN
  | Num p, Num q => Num (p * q)
  | _, _ =>
      if is_zero a || is_zero b then NaN
      else inf (xorb (negative a) (negative b))
  end.

(** Tensor division: a finite non-zero value over zero is an infinity,
    [0/0] and [inf/inf] are NaN.  (The sign of a zero is not represented;
    a division by zero takes the sign of the numerator.) *)
Definition div (a b : fval) : fval :=
  match a, b with
  | NaN, _ | _, NaN => NaN
  | Num p, Num q =>
      if Qeq_bool q 0
      then (if Qeq_bool p 0 then NaN else inf (negative a))
      else Num (p / q)
  | Num _, _ => zero
  | _, Num _ => inf (xorb (negative a) (negative b))
  | _, _ => NaN
  end.

(** *** Rounding to a binary format *)

Definition pow2 (e : Z) : Q := (2 # 1) ^ e.

(** [ilog2 q] is the exponent [e] with [2^e <= q < 2^(e+1)], for [q > 0]. *)
Definition ilog2 (q : Q) : Z :=
  let k := (Z.log2 (Qnum q) - Z.log2 (Zpos (Qden q)))%Z in
  if Qle_bool (pow2 k) q then k else (k - 1)%Z.

(** Nearest integer, ties to even. *)
Definition rne (s : Q) : Z :=
  let f := Qfloor s in
  match Qcompare (s - inject_Z f) (1 # 2) with
  | Lt => f
  | Gt => (f + 1)%Z
  | Eq => if Z.even f then f else (f + 1)%Z
  end.

(** Round-to-nearest-even into the binary format with [prec] significant
    bits, least quantum [2^emin] and overflow threshold [2^emax]. *)
Definition round_to (prec emin emax : Z) (q : Q) : fval :=
  if Qeq_bool q 0 then Num 0
  else
    let a := Qabs q in
    let ex := Z.max (ilog2 a - prec + 1) emin in
    let r := inject_Z (rne (a / pow2 ex)) * pow2 ex in
    if Qle_bool (pow2 emax) r then inf (negb (Qle_bool 0 q))
    else Num (if Qle_bool 0 q then r else - r).

Definition binary32 (q : Q) : fval := round_to 24 (-149) 128 q.
Definition binary64 (q : Q) : fval := round_to 53 (-1074) 1024 q.

(** The numbers of a binary format: zero, and [m * 2^ex] with a significand
    of at most [prec] bits, an exponent not below [emin] and a magnitude
    below [2^emax]. *)
Definition in_format (prec emin emax : Z) (r : Q) : Prop :=
  r == 0
  \/ exists m ex,
       (0 < m <= 2 ^ prec)%Z /\ (emin <= ex)%Z
       /\ Qabs r == inject_Z m * pow2 ex /\ Qabs r < pow2 emax.

(** Truncation toward zero of a rational. *)
Definition Qtrunc (q : Q) : Z := Z.quot (Qnum q) (Zpos (Qden q)).

End Float.

(** Agreement of [Float.binary64] with the Standard Library's bit-level IEEE
    specification, on sample quotients and products. *)
Module FloatCheck.

Import Float.
Local Open Scope Q_scope.

Definition SF2Q (f : spec_float) : fval :=
  match f with
  | S754_zero _ => Num 0
  | S754_infinity s => inf s
  | S754_nan => NaN
  | S754_finite s m e =>
      Num ((if s then - inject_Z (Zpos m) else inject_Z (Zpos m)) * pow2 e)
  end.

Definition sf64 (z : Z) : spec_float := binary_normalize 53 1024 z 0 false.
Definition sfdiv64 (a b : Z) : spec_float := SFdiv 53 1024 (sf64 a) (sf64 b).

Example div_1_49 :
  sameb (binary64 (1 # 49)) (SF2Q (sfdiv64 1 49)) = true.
Proof. vm_compute. reflexivity. Qed.

Example div_7_3 :
  sameb (binary64 (7 # 3)) (SF2Q (sfdiv64 7 3)) = true.
Proof. vm_compute. reflexivity. Qed.

Example div_480_1080 :
  sameb (binary64 (480 # 1080)) (SF2Q (sfdiv64 480 1080)) = true.
Proof. vm_compute. reflexivity. Qed.

Example mul_inv49_49 :
  match binary64 (1 # 49) with
  | Num f => sameb (binary64 (f * 49))
               (SF2Q (SFmul 53 1024 (sfdiv64 1 49) (sf64 49)))
  | _ => false
  end = true.
Proof. vm_compute. reflexivity. Qed.

Example of_int_2p53_plus_1 :
  sameb (binary64 (inject_Z (2 ^ 53 + 1))) (SF2Q (sf64 (2 ^ 53 + 1))) = true.
Proof. vm_compute. reflexivity. Qed.

Example single_tenth :
  sameb (binary32 (1 # 10))
    (SF2Q (SFdiv 24 128 (binary_normalize 24 128 1 0 false)
                       (binary_normalize 24 128 10 0 false))) = true.
Proof. vm_compute. reflexivity. Qed.

Example div_neg_5_3 :
  sameb (binary64 (-5 # 3)) (SF2Q (sfdiv64 (-5) 3)) = true.
Proof. vm_compute. reflexivity. Qed.

Example single_subnormal_tie :
  sameb (binary32 (3 # 2 ^ 150))
    (SF2Q (binary_normalize 24 128 3 (-150) false)) = true.
Proof. vm_compute. reflexivity. Qed.

Example single_overflow :
  sameb (binary32 (inject_Z ((2 ^ 25 - 1) * 2 ^ 103)))
    (SF2Q (binary_normalize 24 128 (2 ^ 25 - 1) 103 false)) = true
  /\ binary32 (inject_Z ((2 ^ 25 - 1) * 2 ^ 103)) = PosInf.
Proof. split; vm_compute; reflexivity. Qed.

End FloatCheck.

(** ** The tensor runtime *)

Module Torch.

Import Float.
Local Open Scope Q_scope.

Inductive dtype : Set := float32 | float64 | uint8 | torch_bool.

(** [tensor.to(dtype)] on one element.  Conversions into [uint8] of values
    outside 0..255 or of non-finite values are left undefined by the
    runtime; the operations below only convert back values that came from
    that dtype. *)
Definition cast (d : dtype) (v : fval) : fval :=
  match d with
  | float32 => match v with Num q => binary32 q | _ => v end
  | float64 => match v with Num q => binary64 q | _ => v end
  | uint8 => match v with Num q => of_Z (Qtrunc q mod 256) | _ => zero end
  | torch_bool => if is_zero v then zero else one
  end.

Definition is_floating (d : dtype) : bool :=
  match d with
  | float32 | float64 => true
  | uint8 | torch_bool => false
  end.

Definition dtype_eqb (a b : dtype) : bool :=
  match a, b with
  | float32, float32 | float64, float64 => true
  | uint8, uint8 | torch_bool, torch_bool => true
  | _, _ => false
  end.

(** [torch.full((n,), fill_value=float('NaN'), dtype=d)]: the fill value is
    converted into [d] with an overflow check, and NaN has a representation
    in the floating dtypes only. *)
Definition full_NaN (n : nat) (d : dtype) : result (list fval) :=
  if is_floating d then Ok (repeat NaN n) else Raise RuntimeError.

(** [a @ b] accepts operands of one dtype only. *)
Definition matmul_dtypes (a b : dtype) : result unit :=
  if dtype_eqb a b then Ok tt else Raise RuntimeError.

(** [tensor.to(torch.int64)] on one element of a floating tensor:
    truncation toward zero.  (Tensor extents are below 2^63, so the
    truncation of a coordinate between 0 and an extent fits; a non-finite
    value gives the x86 result.) *)
Definition to_int64 (v : fval) : Z :=
  match v with
  | Num q => Qtrunc q
  | _ => (- 2 ^ 63)%Z
  end.

(** A rank-3 tensor [[C, H, W]]: its dtype, its shape and its elements. *)
Record tensor3 : Type := Tensor3 {
  dtype3 : dtype;
  chans : nat;
  rows : nat;
  cols : nat;
  at3 : nat -> nat -> nat -> fval
}.

(** A rank-2 tensor [[H, W]]. *)
Record tensor2 : Type := Tensor2 {
  dtype2 : dtype;
  rows2 : nat;
  cols2 : nat;
  at2 : nat -> nat -> fval
}.

Definition to3 (d : dtype) (t : tensor3) : tensor3 :=
  Tensor3 d (chans t) (rows t) (cols t)
    (fun c i j => cast d (at3 t c i j)).

Definition to2 (d : dtype) (t : tensor2) : tensor2 :=
  Tensor2 d (rows2 t) (cols2 t) (fun i j => cast d (at2 t i j)).

(** [torch.ones(shape).bool()] *)
Definition ones_bool (h w : nat) : tensor2 :=
  to2 torch_bool (Tensor2 float32 h w (fun _ _ => one)).

(** [t[None]] and [t[0]] *)
Definition unsqueeze0 (t : tensor2) : tensor3 :=
  Tensor3 (dtype2 t) 1 (rows2 t) (cols2 t) (fun _ i j => at2 t i j).

Definition select0 (t : tensor3) : result tensor2 :=
  if (0 <? chans t)%nat
  then Ok (Tensor2 (dtype3 t) (rows t) (cols t) (fun i j => at3 t 0 i j))
  else Raise IndexError.

(** An index into a dimension of extent [dim]: negative indices count from
    the end, anything else outside the extent raises [IndexError]. *)
Definition norm_index (dim : nat) (i : Z) : result nat :=
  if ((0 <=? i) && (i <? Z.of_nat dim))%Z then Ok (Z.to_nat i)
  else if ((- Z.of_nat dim <=? i) && (i <? 0))%Z
       then Ok (Z.to_nat (i + Z.of_nat dim))
       else Raise IndexError.

(** [t[c, y, x]] for an integer [c] and index tensors [y], [x] given as
    the list of their pairs. *)
Fixpoint gather (t : tensor3) (c : nat) (yx : list (Z * Z))
  : result (list fval) :=
  match yx with
  | [] => Ok []
  | (y, x) :: rest =>
      i <- norm_index (rows t) y ;;
      j <- norm_index (cols t) x ;;
      vs <- gather t c rest ;;
      Ok (at3 t c i j :: vs)
  end.

Definition index3 (t : tensor3) (c : Z) (yx : list (Z * Z))
  : result (list fval) :=
  c' <- norm_index (chans t) c ;;
  gather t c' yx.

(** [xs[:, m]]: the columns selected by a boolean mask. *)
Fixpoint select_cols {A : Type} (xs : list A) (m : list bool)
  : list A :=
  match xs, m with
  | x :: xs', b :: m' =>
      if b then x :: select_cols xs' m' else select_cols xs' m'
  | _, _ => []
  end.

(** [out[m] = vs]: masked assignment of as many values as the mask
    selects. *)
Fixpoint masked_assign {A : Type} (out : list A) (m : list bool)
  (vs : list A) : list A :=
  match out, m with
  | o :: out', b :: m' =>
      if b then
        match vs with
        | v :: vs' => v :: masked_assign out' m' vs'
        | [] => o :: masked_assign out' m' []
        end
      else o :: masked_assign out' m' vs
  | _, _ => out
  end.

(** [F.pad(t, (left, right, top, bottom), mode='constant', value)] on the
    last two dimensions.  A negative amount removes entries from that
    edge; an extent driven below zero is a runtime error, and an output
    extent of exactly zero gives an empty raster. *)
Definition F_pad (t : tensor3) (pad : Z * Z * Z * Z) (value : fval)
  : result tensor3 :=
  let '(pl, pr, pt, pb) := pad in
  let new_cols := (Z.of_nat (cols t) + pl + pr)%Z in
  let new_rows := (Z.of_nat (rows t) + pt + pb)%Z in
  let narrow_fails :=
    ((Z.of_nat (cols t) + Z.min pl 0 <? 0) || (new_cols <? 0)
     || (Z.of_nat (rows t) + Z.min pt 0 <? 0) || (new_rows <? 0))%Z in
  if narrow_fails then Raise RuntimeError
  else
    Ok (Tensor3 (dtype3 t) (chans t) (Z.to_nat new_rows) (Z.to_nat new_cols)
          (fun c i j =>
             let si := (Z.of_nat i - pt)%Z in
             let sj := (Z.of_nat j - pl)%Z in
             if ((0 <=? si) && (si <? Z.of_nat (rows t))
                 && (0 <=? sj) && (sj <? Z.of_nat (cols t)))%Z
             then at3 t c (Z.to_nat si) (Z.to_nat sj)
             else cast (dtype3 t) value)).

(** Source coordinate of output index [dst] for bilinear resampling with
    [align_corners=False]. *)
Definition source_index (inp out : nat) (dst : nat) : Q :=
  let scale := inject_Z (Z.of_nat inp) / inject_Z (Z.of_nat out) in
  let s := scale * (inject_Z (Z.of_nat dst) + (1 # 2)) - (1 # 2) in
  if Qle_bool 0 s then s else 0.

(** [F.interpolate(t, size, mode='bilinear', align_corners=False)] on a
    floating tensor (batch dimension of extent 1 left out).  An output of
    the input's own extent is a copy of the input; otherwise each output
    element is the weighted sum of the four source samples around its
    source coordinate.  Coordinates, weights and sum are exact here, where
    the runtime computes them in floating point. *)
Definition F_interpolate (t : tensor3) (size : Z * Z) : result tensor3 :=
  let '(oh, ow) := size in
  if ((0 <? oh) && (0 <? ow))%Z
     && ((0 <? chans t) && (0 <? rows t) && (0 <? cols t))%nat
  then
    let nh := Z.to_nat oh in
    let nw := Z.to_nat ow in
    Ok (Tensor3 (dtype3 t) (chans t) nh nw
          (fun c i j =>
             if ((nh =? rows t) && (nw =? cols t))%nat then at3 t c i j
             else
             let sy := source_index (rows t) nh i in
             let sx := source_index (cols t) nw j in
             let y0 := Z.to_nat (Qfloor sy) in
             let x0 := Z.to_nat (Qfloor sx) in
             let y1 := if (y0 <? rows t - 1)%nat then S y0 else y0 in
             let x1 := if (x0 <? cols t - 1)%nat then S x0 else x0 in
             let ly1 := Num (sy - inject_Z (Qfloor sy)) in
             let lx1 := Num (sx - inject_Z (Qfloor sx)) in
             let ly0 := sub one ly1 in
             let lx0 := sub one lx1 in
             add (mul ly0 (add (mul lx0 (at3 t c y0 x0))
                               (mul lx1 (at3 t c y0 x1))))
                 (mul ly1 (add (mul lx0 (at3 t c y1 x0))
                               (mul lx1 (at3 t c y1 x1))))))
  else Raise RuntimeError.

(** *** 3-vectors and 3x3 matrices *)

Definition vec3 : Set := (fval * fval * fval)%type.
Definition mat3 : Set := (vec3 * vec3 * vec3)%type.

Record matrix : Set := Matrix { mdtype : dtype; mval : mat3 }.

Definition dot (u v : vec3) : fval :=
  let '(a, b, c) := u in
  let '(x, y, z) := v in
  add (add (mul a x) (mul b y)) (mul c z).

(** [M @ v] *)
Definition mv (M : mat3) (v : vec3) : vec3 :=
  let '(r0, r1, r2) := M in (dot r0 v, dot r1 v, dot r2 v).

(** [M.T] *)
Definition transpose (M : mat3) : mat3 :=
  let '((a, b, c), (d, e, f), (g, h, i)) := M in
  ((a, d, g), (b, e, h), (c, f, i)).

(** [A @ B] *)
Definition mm (A B : mat3) : mat3 :=
  let '(c0, c1, c2) := transpose B in
  let '(r0, r1, r2) := A in
  ((dot r0 c0, dot r0 c1, dot r0 c2),
   (dot r1 c0, dot r1 c1, dot r1 c2),
   (dot r2 c0, dot r2 c1, dot r2 c2)).

Definition vadd (u v : vec3) : vec3 :=
  let '(a, b, c) := u in
  let '(x, y, z) := v in (add a x, add b y, add c z).

Definition vsub (u v : vec3) : vec3 :=
  let '(a, b, c) := u in
  let '(x, y, z) := v in (sub a x, sub b y, sub c z).

Definition vscale (u : vec3) (s : fval) : vec3 :=
  let '(a, b, c) := u in (mul a s, mul b s, mul c s).

Definition det (M : mat3) : fval :=
  let '((a, b, c), (d, e, f), (g, h, i)) := M in
  add (sub (mul a (sub (mul e i) (mul f h)))
           (mul b (sub (mul d i) (mul f g))))
      (mul c (sub (mul d h) (mul e g))).

(** [M.inverse()] on exact values: the adjugate over the determinant, and a
    runtime error for a determinant of 0.  The runtime inverts through a
    factorisation in floating point, so the entries it returns, and whether
    it reports a singular matrix, can differ; no property below depends on
    either. *)
Definition inverse (M : mat3) : result mat3 :=
  let '((a, b, c), (d, e, f), (g, h, i)) := M in
  let dt := det M in
  if is_zero dt then Raise RuntimeError
  else
    let co (p q r s : fval) := div (sub (mul p q) (mul r s)) dt in
    Ok ((co e i f h, co c h b i, co b f c e),
        (co f g d i, co a i c g, co c d a f),
        (co d h e g, co b g a h, co a e b d)).

(** [t.to(dtype)] on a 3-vector and on a 3x3 matrix. *)
Definition vec_to (d : dtype) (u : vec3) : vec3 :=
  let '(a, b, c) := u in (cast d a, cast d b, cast d c).

Definition mat_to (d : dtype) (M : mat3) : mat3 :=
  let '(r0, r1, r2) := M in (vec_to d r0, vec_to d r1, vec_to d r2).

End Torch.

(** ** Python's scalar arithmetic on [int] and [float] *)

Module PyNum.

Import Float.
Local Open Scope Q_scope.

Definition round64 (v : fval) : fval :=
  match v with Num q => binary64 q | _ => v end.

(** [a / b] on two ints: the correctly rounded quotient. *)
Definition truediv (a b : Z) : result fval :=
  if (b =? 0)%Z then Raise ZeroDivisionError
  else
    match binary64 (inject_Z a / inject_Z b) with
    | Num q => Ok (Num q)
    | _ => Raise OverflowError
    end.

(** [float(n)] for an int, as done implicitly in mixed arithmetic. *)
Definition float_of_int (n : Z) : result fval :=
  match binary64 (inject_Z n) with
  | Num q => Ok (Num q)
  | _ => Raise OverflowError
  end.

(** [a / b] on two floats. *)
Definition fdiv (a b : fval) : result fval :=
  if is_zero b then Raise ZeroDivisionError else Ok (round64 (div a b)).

(** [a * b] on two floats. *)
Definition fmul (a b : fval) : fval := round64 (mul a b).

(** [max(a, b)]: the first argument unless the second is greater. *)
Definition max (a b : fval) : fval := if gt b a then b else a.

(** [int(x)] for a float: truncation toward zero. *)
Definition int (x : fval) : result Z :=
  match x with
  | Num q => Ok (Qtrunc q)
  | NaN => Raise ValueError
  | _ => Raise OverflowError
  end.

End PyNum.

(** ** [datasets/image.py] *)

Import Float Torch.

Definition _rescale (tensor : tensor3) (size : Z * Z) : result tensor3 :=
  r <- F_interpolate (to3 float32 tensor) size ;;
  Ok (to3 (dtype3 tensor) r).

Definition _pad (tensor : tensor3) (size : Z * Z) (value : fval)
  : result tensor3 :=
  let xpad := (snd size - Z.of_nat (cols tensor))%Z in
  let ypad := (fst size - Z.of_nat (rows tensor))%Z in
  p <- F_pad (to3 float32 tensor) (0, xpad, 0, ypad)%Z value ;;
  let padded := to3 (dtype3 tensor) p in
  Py.assert ((Z.of_nat (rows padded) =? fst size)%Z
             && (Z.of_nat (cols padded) =? snd size)%Z) ;;;
  Ok padded.

Module Image.

(** The fields of an [Image]; [K] keeps its dtype, which [scale] reads. *)
Record t : Type := Build {
  K : matrix;
  R : mat3;
  T : vec3;
  depth : tensor3;
  bitmap : tensor3;
  mask : tensor2
}.

Definition __init__ (K : matrix) (R : mat3) (T : vec3)
  (bitmap depth : tensor3) (mask : option tensor2) : result t :=
  Ok {| K := K; R := R; T := T; depth := depth; bitmap := bitmap;
        mask := match mask with
                | None => ones_bool (rows bitmap) (cols bitmap)
                | Some m => to2 torch_bool m
                end |}.

(** [K.inverse()] is defined on floating tensors only. *)
Definition K_inv (self : t) : result mat3 :=
  if is_floating (mdtype (K self)) then inverse (mval (K self))
  else Raise RuntimeError.

Definition shape (self : t) : nat * nat :=
  (rows (bitmap self), cols (bitmap self)).

Definition length (self : t) : nat :=
  (rows (bitmap self) * cols (bitmap self))%nat.

(** The size computed by the first lines of [scale], with the factor [f]. *)
Definition scale_size (shape : nat * nat) (size : Z * Z)
  : result (fval * (Z * Z)) :=
  x_factor <- PyNum.truediv (Z.of_nat (fst shape)) (fst size) ;;
  y_factor <- PyNum.truediv (Z.of_nat (snd shape)) (snd size) ;;
  f <- PyNum.fdiv one (PyNum.max x_factor y_factor) ;;
  new_size <-
    (if gt x_factor y_factor then
       w <- PyNum.float_of_int (Z.of_nat (snd shape)) ;;
       n <- PyNum.int (PyNum.fmul f w) ;;
       Ok (fst size, n)
     else
       h <- PyNum.float_of_int (Z.of_nat (fst shape)) ;;
       n <- PyNum.int (PyNum.fmul f h) ;;
       Ok (n, snd size)) ;;
  Ok (f, new_size).

Definition K_scaler (d : dtype) (f : fval) : mat3 :=
  let f' := cast d f in
  let o := cast d zero in
  let i := cast d one in
  ((f', o, f'), (o, f', f'), (o, o, i)).

Definition scale (self : t) (size : Z * Z) : result t :=
  fs <- scale_size (shape self) size ;;
  let '(f, new_size) := fs in
  let K' := Matrix (mdtype (K self))
              (mm (K_scaler (mdtype (K self)) f) (mval (K self))) in
  bitmap' <- _rescale (bitmap self) new_size ;;
  depth' <- _rescale (depth self) new_size ;;
  m3 <- _rescale (unsqueeze0 (mask self)) new_size ;;
  mask' <- select0 m3 ;;
  __init__ K' (R self) (T self) bitmap' depth' (Some mask').

Definition pad (self : t) (size : Z * Z) : result t :=
  bitmap' <- _pad (bitmap self) size zero ;;
  depth' <- _pad (depth self) size NaN ;;
  m3 <- _pad (unsqueeze0 (mask self)) size zero ;;
  mask' <- select0 m3 ;;
  __init__ (K self) (R self) (T self) bitmap' depth' (Some mask').

(** A batch [xy] of shape [[2, N]] is given by its [N] columns. *)
Definition in_range_mask (self : t) (xy : list (fval * fval)) : list bool :=
  let '(h, w) := shape self in
  map (fun '(x, y) =>
         ge x zero && ge y zero
         && le x (of_Z (Z.of_nat w)) && le y (of_Z (Z.of_nat h)))
      xy.

Definition fetch_depth (self : t) (xy : list (fval * fval))
  : result (list fval) :=
  let in_range := in_range_mask self xy in
  let finite := map (fun '(x, y) => isfinite x && isfinite y) xy in
  let valid_depth :=
    map (fun '(a, b) => a && b) (combine in_range finite) in
  let yx :=
    map (fun '(x, y) => (to_int64 y, to_int64 x))
        (select_cols xy valid_depth) in
  depth0 <- full_NaN (List.length xy) (dtype3 (depth self)) ;;
  vals <- index3 (depth self) 0 yx ;;
  Ok (masked_assign depth0 valid_depth vals).

(** [unproject]: the depth lookup comes first, then [K_inv], then the
    products.  [K_inv @ xyw] needs K in the dtype of the depth raster, in
    which [xyw] is built.  R and T carry no dtype here: they are taken in
    that dtype too. *)
Definition unproject (self : t) (xy : list (fval * fval))
  : result (list vec3) :=
  depth <- fetch_depth self xy ;;
  let d := dtype3 (Image.depth self) in
  let xyw := map (fun '(x, y) => (cast d x, cast d y, one)) xy in
  Kinv <- K_inv self ;;
  matmul_dtypes (mdtype (K self)) d ;;;
  let xyz :=
    map (fun '(p, z) => vscale (mv Kinv p) z) (combine xyw depth) in
  Ok (map (fun p => mv (transpose (R self)) (vsub p (T self))) xyz).

Definition project (self : t) (xyw : list vec3) : list (fval * fval) :=
  map (fun p =>
         let extrinsic := vadd (mv (R self) p) (T self) in
         let '(a, b, c) := mv (mval (K self)) extrinsic in
         (div a c, div b c))
      xyw.

(** [to(...)]: the conversion of K, R, T, depth and mask, in that order,
    with the arguments handed to [tensor.to]; [bitmap] is not in the list.
    The argument is the target dtype, or [None] for a call that names a
    device only, which changes no value.  The method updates the object in
    place and returns it; the embedding returns the updated view. *)
Definition to (self : t) (dt : option dtype) : t :=
  match dt with
  | None => self
  | Some d =>
      {| K := Matrix d (mat_to d (mval (K self)));
         R := mat_to d (R self);
         T := vec_to d (T self);
         depth := to3 d (depth self);
         bitmap := bitmap self;
         mask := to2 d (mask self) |}
  end.

End Image.

(** ** Views used in examples *)

Module Examples.

Local Open Scope Q_scope.

Definition eye : mat3 :=
  ((one, zero, zero), (zero, one, zero), (zero, zero, one)).

Definition K0 : matrix :=
  Matrix float32
    ((Num 2, zero, Num 1), (zero, Num 2, Num 1), (zero, zero, one)).

(** A rotation by a quarter turn about the optical axis. *)
Definition R0 : mat3 :=
  ((zero, Num (-1), zero), (one, zero, zero), (zero, zero, one)).

Definition T0 : vec3 := (Num 1, Num 2, Num 3).

(** A [c x h x w] raster whose element at [(k, i, j)] is
    [base + 10 i + j + 100 k]. *)
Definition ramp (d : dtype) (c h w : nat) (base : Q) : tensor3 :=
  Tensor3 d c h w
    (fun k i j =>
       Num (base + inject_Z (Z.of_nat (100 * k + 10 * i + j)))).

Definition all_true (h w : nat) : tensor2 := ones_bool h w.

(** A 2 x 2 view with float32 rasters. *)
Definition view22 : Image.t :=
  Image.Build K0 R0 T0 (ramp float32 1 2 2 5) (ramp float32 3 2 2 0)
    (all_true 2 2).

(** A 1 x 1 view. *)
Definition view11 : Image.t :=
  Image.Build K0 eye T0 (ramp float32 1 1 1 5) (ramp float32 3 1 1 0)
    (all_true 1 1).

(** A 2 x 2 view whose depth raster is float64 and stores the double
    nearest to 0.1 at every pixel. *)
Definition tenth : fval := binary64 (1 # 10).

Definition view_f64 : Image.t :=
  Image.Build K0 eye T0
    (Tensor3 float64 1 2 2 (fun _ _ _ => tenth))
    (ramp float32 3 2 2 0) (all_true 2 2).


(** The result of scaling the 2 x 2 view to (1, 1). *)
Definition scaled22 : Image.t :=
  match Image.scale view22 (1, 1)%Z with
  | Ok v' => v'
  | Raise _ => view22
  end.

(** A view whose rasters have no rows: extent 0 x 3. *)
Definition view_empty : Image.t :=
  Image.Build K0 eye T0 (ramp float32 1 0 3 5) (ramp float32 3 0 3 0)
    (all_true 0 3).


End Examples.

(** ** Specification-level notions *)

Module Spec.

Local Open Scope Q_scope.

(** [lo <= v <= hi] for a value: only a number can lie between two
    integers. *)
Definition within (lo hi : Z) (v : fval) : Prop :=
  match v with
  | Num q => inject_Z lo <= q /\ q <= inject_Z hi
  | _ => False
  end.

(** The data-model invariant on the rasters: [depth] is a floating
    [[1, H, W]] raster, [mask] a boolean [[H, W]] raster, both of the
    bitmap's extent. *)
Definition floating (d : dtype) : Prop := d = float32 \/ d = float64.

Record valid_view (v : Image.t) : Prop := {
  depth_chans : chans (Image.depth v) = 1%nat;
  depth_rows : rows (Image.depth v) = rows (Image.bitmap v);
  depth_cols : cols (Image.depth v) = cols (Image.bitmap v);
  depth_floating : floating (dtype3 (Image.depth v));
  mask_rows : rows2 (Image.mask v) = rows (Image.bitmap v);
  mask_cols : cols2 (Image.mask v) = cols (Image.bitmap v);
  mask_dtype : dtype2 (Image.mask v) = torch_bool;
  mask_values :
    forall i j, at2 (Image.mask v) i j = zero \/ at2 (Image.mask v) i j = one
}.

(** "A coordinate is valid iff it is in-range and both its components are
    finite." *)
Definition valid (v : Image.t) (p : fval * fval) : bool :=
  match Image.in_range_mask v [p] with
  | [b] => b && isfinite (fst p) && isfinite (snd p)
  | _ => false
  end.



(** A value that conversion to float32 leaves unchanged. *)
Definition float32_exact (x : fval) : Prop := Float.same (cast float32 x) x.

(** What [unproject] computes for one column [p] of the batch with fetched
    depth [z], and what [project] computes for one point. *)
Definition unproject_column (v : Image.t) (Kinv : mat3) (p : fval * fval)
  (z : fval) : vec3 :=
  let d := dtype3 (Image.depth v) in
  mv (transpose (Image.R v))
    (vsub (vscale (mv Kinv (cast d (fst p), cast d (snd p), one)) z)
       (Image.T v)).

Definition project_column (v : Image.t) (p : vec3) : fval * fval :=
  let extrinsic := vadd (mv (Image.R v) p) (Image.T v) in
  let '(a, b, c) := mv (mval (Image.K v)) extrinsic in
  (div a c, div b c).

(** The row and column that the lookup computes for a coordinate lie inside
    the depth raster. *)
Definition index_inside (v : Image.t) (p : fval * fval) : Prop :=
  (0 <= to_int64 (snd p) < Z.of_nat (rows (Image.depth v)))%Z
  /\ (0 <= to_int64 (fst p) < Z.of_nat (cols (Image.depth v)))%Z.

(** "A coordinate is valid iff it is in-range and both its components are
    finite", on the numbers: 0 <= x <= W and 0 <= y <= H for the shape
    (H, W) of the view. *)
Definition coord_valid (v : Image.t) (p : fval * fval) : Prop :=
  within 0 (Z.of_nat (cols (Image.bitmap v))) (fst p)
  /\ within 0 (Z.of_nat (rows (Image.bitmap v))) (snd p).

(** [x < n] for a value. *)
Definition below (n : nat) (x : fval) : Prop :=
  match x with
  | Num q => q < inject_Z (Z.of_nat n)
  | _ => False
  end.

(** "[x] truncated to the integer index [i]", for a component that is not
    negative: [i <= x < i + 1]. *)
Definition pixel (x : fval) (i : nat) : Prop :=
  match x with
  | Num q => inject_Z (Z.of_nat i) <= q /\ q < inject_Z (Z.of_nat i) + 1
  | _ => False
  end.

(** A coordinate strictly inside the depth raster. *)
Definition strictly_inside (v : Image.t) (p : fval * fval) : Prop :=
  below (cols (Image.depth v)) (fst p) /\ below (rows (Image.depth v)) (snd p).

Definition nan3 : vec3 := (NaN, NaN, NaN).

(** Two vectors, two matrices that carry the same values. *)
Definition same_vec (u w : vec3) : Prop :=
  let '(a, b, c) := u in
  let '(x, y, z) := w in Float.same a x /\ Float.same b y /\ Float.same c z.

Definition same_mat (A B : mat3) : Prop :=
  let '(a0, a1, a2) := A in
  let '(b0, b1, b2) := B in
  same_vec a0 b0 /\ same_vec a1 b1 /\ same_vec a2 b2.

End Spec.

(** ** Matrices with finite entries

    A finite matrix as the rationals it carries, and the exact product of
    two such matrices. *)

Module QAlg.

Local Open Scope Q_scope.

Definition qvec : Set := (Q * Q * Q)%type.
Definition qmat : Set := (qvec * qvec * qvec)%type.

Definition inj (u : qvec) : vec3 :=
  let '(a, b, c) := u in (Num a, Num b, Num c).

Definition inj_mat (M : qmat) : mat3 :=
  let '(r0, r1, r2) := M in (inj r0, inj r1, inj r2).

Definition qdot (u v : qvec) : Q :=
  let '(a, b, c) := u in
  let '(x, y, z) := v in a * x + b * y + c * z.

Definition qtranspose (M : qmat) : qmat :=
  let '((a, b, c), (d, e, f), (g, h, i)) := M in
  ((a, d, g), (b, e, h), (c, f, i)).

Definition qvadd (u v : qvec) : qvec :=
  let '(a, b, c) := u in
  let '(x, y, z) := v in (a + x, b + y, c + z).

Definition qmm (A B : qmat) : qmat :=
  let '(c0, c1, c2) := qtranspose B in
  let '(r0, r1, r2) := A in
  ((qdot r0 c0, qdot r0 c1, qdot r0 c2),
   (qdot r1 c0, qdot r1 c1, qdot r1 c2),
   (qdot r2 c0, qdot r2 c1, qdot r2 c2)).

End QAlg.

(** ** Properties *)

(** *** Rounding error of the binary formats *)

Section Rounding.

Local Open Scope Q_scope.

Lemma two_neq_0 : ~ (2 # 1) == 0.
Proof. discriminate. Qed.

Lemma pow2_pos (e : Z) : 0 < pow2 e.
Proof. apply Qpower_0_lt. reflexivity. Qed.

Lemma pow2_add (a b : Z) : pow2 (a + b) == pow2 a * pow2 b.
Proof. apply Qpower_plus, two_neq_0. Qed.

Lemma pow2_le (a b : Z) : (a <= b)%Z -> pow2 a <= pow2 b.
Proof. intro Hab. apply Qpower_le_compat_l; [exact Hab | discriminate]. Qed.

Lemma pow2_lt (a b : Z) : (a < b)%Z -> pow2 a < pow2 b.
Proof. intro Hab. apply Qpower_lt_compat_l; [exact Hab | reflexivity]. Qed.

Lemma pow2_lt_inv (a b : Z) : pow2 a < pow2 b -> (a < b)%Z.
Proof.
  intro Hab. apply (Qpower_lt_compat_l_inv (2 # 1)); [exact Hab | reflexivity].
Qed.

Lemma pow2_nonneg_exp (n : Z) : (0 <= n)%Z -> pow2 n == inject_Z (2 ^ n).
Proof. intro Hn. unfold pow2. symmetry. apply (Zpower_Qpower 2 n Hn). Qed.

Lemma pow2_succ (e : Z) : pow2 (e + 1) == 2 * pow2 e.
Proof. rewrite pow2_add. change (pow2 1) with (2 # 1). ring. Qed.

Lemma pow2_opp (e : Z) : pow2 (- e) == / pow2 e.
Proof. apply Qpower_opp. Qed.

(** [ilog2] brackets a positive rational between two powers of two. *)
Lemma ilog2_spec (q : Q) :
  0 < q -> pow2 (ilog2 q) <= q /\ q < pow2 (ilog2 q + 1).
Proof.
  intros Hq. destruct q as [n d].
  assert (Hn : (0 < n)%Z).
  { unfold Qlt in Hq. simpl in Hq. lia. }
  unfold ilog2. cbn [Qnum Qden].
  set (ln := Z.log2 n). set (ld := Z.log2 (Zpos d)).
  destruct (Z.log2_spec n Hn) as [Hn1 Hn2]. fold ln in Hn1, Hn2.
  destruct (Z.log2_spec (Zpos d) (Pos2Z.is_pos d)) as [Hd1 Hd2].
  fold ld in Hd1, Hd2.
  assert (Hln : (0 <= ln)%Z) by apply Z.log2_nonneg.
  assert (Hld : (0 <= ld)%Z) by apply Z.log2_nonneg.
  assert (Eq : n # d == inject_Z n / inject_Z (Zpos d)).
  { apply Qmake_Qdiv. }
  assert (Hdpos : 0 < inject_Z (Zpos d)).
  { change 0 with (inject_Z 0). rewrite <- Zlt_Qlt. reflexivity. }
  (* the two outer bounds *)
  assert (Hup : n # d < pow2 (ln - ld + 1)).
  { rewrite Eq. apply Qlt_shift_div_r; [exact Hdpos|].
    replace (ln - ld + 1)%Z with ((ln + 1) + - ld)%Z by ring.
    rewrite pow2_add, pow2_opp.
    rewrite (pow2_nonneg_exp (n := ln + 1)) by lia.
    rewrite (pow2_nonneg_exp Hld).
    assert (H1 : inject_Z n < inject_Z (2 ^ (ln + 1))).
    { rewrite <- Zlt_Qlt. replace (ln + 1)%Z with (Z.succ ln) by ring.
      exact Hn2. }
    assert (H2 : inject_Z (2 ^ ld) <= inject_Z (Zpos d)).
    { rewrite <- Zle_Qle. exact Hd1. }
    assert (H3 : 0 < inject_Z (2 ^ ld)).
    { change 0 with (inject_Z 0). rewrite <- Zlt_Qlt.
      apply Z.pow_pos_nonneg; lia. }
    assert (H4 : 0 < inject_Z (2 ^ (ln + 1))).
    { change 0 with (inject_Z 0). rewrite <- Zlt_Qlt.
      apply Z.pow_pos_nonneg; lia. }
    apply Qlt_le_trans with (inject_Z (2 ^ (ln + 1))); [exact H1|].
    rewrite <- Qmult_assoc.
    rewrite <- (Qmult_1_r (inject_Z (2 ^ (ln + 1)))) at 1.
    apply Qmult_le_l; [exact H4|].
    rewrite Qmult_comm. apply Qle_shift_div_l; [exact H3|].
    rewrite Qmult_1_l. exact H2. }
  assert (Hlow : pow2 (ln - ld - 1) < n # d).
  { rewrite Eq. apply Qlt_shift_div_l; [exact Hdpos|].
    replace (ln - ld - 1)%Z with (ln + - (ld + 1))%Z by ring.
    rewrite pow2_add, pow2_opp.
    rewrite (pow2_nonneg_exp Hln).
    rewrite (pow2_nonneg_exp (n := ld + 1)) by lia.
    assert (H1 : inject_Z (2 ^ ln) <= inject_Z n).
    { rewrite <- Zle_Qle. exact Hn1. }
    assert (H2 : inject_Z (Zpos d) < inject_Z (2 ^ (ld + 1))).
    { rewrite <- Zlt_Qlt. replace (ld + 1)%Z with (Z.succ ld) by ring.
      exact Hd2. }
    assert (H3 : 0 < inject_Z (2 ^ (ld + 1))).
    { change 0 with (inject_Z 0). rewrite <- Zlt_Qlt.
      apply Z.pow_pos_nonneg; lia. }
    assert (H4 : 0 < inject_Z (2 ^ ln)).
    { change 0 with (inject_Z 0). rewrite <- Zlt_Qlt.
      apply Z.pow_pos_nonneg; lia. }
    apply Qlt_le_trans with (inject_Z (2 ^ ln)); [|exact H1].
    rewrite <- Qmult_assoc.
    rewrite <- (Qmult_1_r (inject_Z (2 ^ ln))) at 2.
    apply Qmult_lt_l; [exact H4|].
    rewrite Qmult_comm. apply Qlt_shift_div_r; [exact H3|].
    rewrite Qmult_1_l. exact H2. }
  destruct (Qle_bool (pow2 (ln - ld)) (n # d)) eqn:Ec.
  - apply Qle_bool_iff in Ec. split; assumption.
  - split.
    + apply Qlt_le_weak. exact Hlow.
    + replace (ln - ld - 1 + 1)%Z with (ln - ld)%Z by ring.
      apply Qnot_le_lt. intro Hc. apply Qle_bool_iff in Hc. congruence.
Qed.


Lemma rne_error (s : Q) :
  - (1 # 2) <= inject_Z (rne s) - s /\ inject_Z (rne s) - s <= 1 # 2.
Proof.
  unfold rne.
  pose proof (Qfloor_le s) as Hlo.
  pose proof (Qlt_floor s) as Hhi.
  rewrite inject_Z_plus in Hhi. change (inject_Z 1) with 1 in Hhi.
  destruct (Qcompare (s - inject_Z (Qfloor s)) (1 # 2)) eqn:Ec.
  - apply Qeq_alt in Ec.
    destruct (Z.even (Qfloor s)).
    + split; lra.
    + rewrite inject_Z_plus. change (inject_Z 1) with 1. split; lra.
  - apply Qlt_alt in Ec. split; lra.
  - apply Qgt_alt in Ec. rewrite inject_Z_plus.
    change (inject_Z 1) with 1. split; lra.
Qed.

Lemma rne_nonneg (s : Q) : 0 <= s -> (0 <= rne s)%Z.
Proof.
  intro Hs. unfold rne.
  assert (Hf : (0 <= Qfloor s)%Z).
  { change 0%Z with (Qfloor 0). apply Qfloor_resp_le. exact Hs. }
  destruct (Qcompare (s - inject_Z (Qfloor s)) (1 # 2));
    [destruct (Z.even (Qfloor s))| |]; lia.
Qed.

(** The rounded magnitude is within half a quantum of the exact one. *)
Lemma quantum_error (q : Q) (ex : Z) :
  let r := inject_Z (rne (q / pow2 ex)) * pow2 ex in
  q - pow2 ex / 2 <= r /\ r <= q + pow2 ex / 2.
Proof.
  intro r. subst r.
  pose proof (pow2_pos ex) as Hp.
  destruct (rne_error (q / pow2 ex)) as [Hlo Hhi].
  set (m := inject_Z (rne (q / pow2 ex))) in *.
  assert (Eq : q == (q / pow2 ex) * pow2 ex).
  { field. intro E. rewrite E in Hp. discriminate. }
  set (s := q / pow2 ex) in *.
  split.
  - setoid_replace (q - pow2 ex / 2) with ((s - (1 # 2)) * pow2 ex)
      by (rewrite Eq at 1; field).
    apply Qmult_le_compat_r; [lra | apply Qlt_le_weak; exact Hp].
  - setoid_replace (q + pow2 ex / 2) with ((s + (1 # 2)) * pow2 ex)
      by (rewrite Eq at 1; field).
    apply Qmult_le_compat_r; [lra | apply Qlt_le_weak; exact Hp].
Qed.

(** Relative error of rounding a positive number of the normal range. *)
Lemma round_to_rel (prec emin emax : Z) (q : Q) :
  (0 < prec)%Z -> 0 < q ->
  pow2 (emin + prec - 1) <= q -> q <= pow2 (emax - 1) ->
  exists r,
    round_to prec emin emax q = Num r
    /\ q * (1 - pow2 (- prec)) <= r /\ r <= q * (1 + pow2 (- prec)).
Proof.
  intros Hprec Hq Hlo Hhi.
  destruct (ilog2_spec Hq) as [He1 He2].
  set (e := ilog2 q) in *.
  assert (Hex : Z.max (e - prec + 1) emin = (e - prec + 1)%Z).
  { apply Z.max_l.
    assert (emin + prec - 1 < e + 1)%Z; [|lia].
    apply pow2_lt_inv. eapply Qle_lt_trans; [exact Hlo | exact He2]. }
  destruct (quantum_error q (e - prec + 1)) as [Hr1 Hr2].
  assert (Hhalf : pow2 (e - prec + 1) / 2 == pow2 e * pow2 (- prec)).
  { replace (e - prec + 1)%Z with ((e + - prec) + 1)%Z by ring.
    rewrite pow2_succ, pow2_add. field. }
  rewrite Hhalf in Hr1, Hr2.
  pose proof (pow2_pos (- prec)) as Hu.
  assert (Hu1 : pow2 (- prec) < 1).
  { change 1 with (pow2 0). apply pow2_lt. lia. }
  assert (Herr : pow2 e * pow2 (- prec) <= q * pow2 (- prec)).
  { apply Qmult_le_compat_r; [exact He1 | apply Qlt_le_weak; exact Hu]. }
  set (r := inject_Z (rne (q / pow2 (e - prec + 1))) * pow2 (e - prec + 1))
    in *.
  assert (Hrlo : q * (1 - pow2 (- prec)) <= r).
  { setoid_replace (q * (1 - pow2 (- prec)))
      with (q - q * pow2 (- prec)) by ring. lra. }
  assert (Hrhi : r <= q * (1 + pow2 (- prec))).
  { setoid_replace (q * (1 + pow2 (- prec)))
      with (q + q * pow2 (- prec)) by ring. lra. }
  assert (Hov : r < pow2 emax).
  { eapply Qle_lt_trans; [exact Hrhi|].
    replace emax with ((emax - 1) + 1)%Z by ring. rewrite pow2_succ.
    apply Qle_lt_trans with (pow2 (emax - 1) * (1 + pow2 (- prec))).
    - apply Qmult_le_compat_r; [exact Hhi | lra].
    - pose proof (pow2_pos (emax - 1)) as Hp.
      setoid_replace (2 * pow2 (emax - 1)) with (pow2 (emax - 1) * 2)
        by ring.
      apply Qmult_lt_l; [exact Hp | lra]. }
  exists r. split; [| split; assumption].
  unfold round_to.
  replace (Qeq_bool q 0) with false.
  2:{ symmetry. apply not_true_is_false. intro E.
      apply Qeq_bool_iff in E. rewrite E in Hq. discriminate. }
  assert (Eabs : Qabs q = q).
  { destruct q as [[|p|p] d]; try reflexivity; discriminate. }
  rewrite Eabs. fold e. rewrite Hex. fold r.
  replace (Qle_bool (pow2 emax) r) with false.
  2:{ symmetry. apply not_true_is_false. intro E.
      apply Qle_bool_iff in E. lra. }
  replace (Qle_bool 0 q) with true.
  2:{ symmetry. apply Qle_bool_iff. apply Qlt_le_weak. exact Hq. }
  reflexivity.
Qed.

End Rounding.

Section Binary64.

Local Open Scope Q_scope.

Let u : Q := 1 # 9007199254740992.

Lemma binary64_rel (q : Q) :
  (1 # 1267650600228229401496703205376) <= q ->
  q <= 1267650600228229401496703205376 # 1 ->
  exists r,
    binary64 q = Num r /\ q * (1 - u) <= r /\ r <= q * (1 + u).
Proof.
  intros Hlo Hhi.
  assert (Hq : 0 < q) by lra.
  assert (Eu : pow2 (- 53) == u) by reflexivity.
  destruct (@round_to_rel 53 (-1074) 1024 q) as [r [Er [H1 H2]]];
    try assumption; try reflexivity.
  - apply Qle_trans with (pow2 (- 100)).
    + apply pow2_le. lia.
    + setoid_replace (pow2 (- 100))
        with (1 # 1267650600228229401496703205376) by reflexivity.
      exact Hlo.
  - apply Qle_trans with (pow2 100).
    + setoid_replace (pow2 100)
        with (1267650600228229401496703205376 # 1) by reflexivity.
      exact Hhi.
    + apply pow2_le. lia.
  - exists r. rewrite Eu in H1, H2. split; [exact Er | split; assumption].
Qed.


End Binary64.

(** *** Values of a format are fixed by rounding into a wider one *)

Section Formats.

Local Open Scope Q_scope.

Lemma pow2_le_inv (a b : Z) : pow2 a <= pow2 b -> (a <= b)%Z.
Proof.
  intro Hab. apply (Qpower_le_compat_l_inv (2 # 1)); [exact Hab | reflexivity].
Qed.

Lemma pow2_neq_0 (e : Z) : ~ pow2 e == 0.
Proof. intro E. pose proof (pow2_pos e) as H. rewrite E in H. discriminate. Qed.

Lemma rne_inject_Z (s : Q) (z : Z) : s == inject_Z z -> rne s = z.
Proof.
  intro E. unfold rne.
  assert (Hf : Qfloor s = z) by (rewrite E; apply Qfloor_Z).
  assert (Hc : Qcompare (s - inject_Z z) (1 # 2) = Lt).
  { rewrite <- Qlt_alt. rewrite E. lra. }
  rewrite Hf, Hc. reflexivity.
Qed.

Lemma rne_upper (s : Q) (n : Z) : s < inject_Z n -> (rne s <= n)%Z.
Proof.
  intro Hs. unfold rne.
  assert (Hf : (Qfloor s < n)%Z).
  { rewrite Zlt_Qlt. eapply Qle_lt_trans; [apply Qfloor_le | exact Hs]. }
  destruct (Qcompare (s - inject_Z (Qfloor s)) (1 # 2));
    [destruct (Z.even (Qfloor s))| |]; lia.
Qed.

Lemma Qabs_pos_of_neq (q : Q) : ~ q == 0 -> 0 < Qabs q.
Proof.
  intro Hq. destruct (Qlt_le_dec 0 (Qabs q)) as [H | H]; [exact H|].
  exfalso. apply Hq.
  pose proof (Qabs_nonneg q) as H0.
  assert (E : Qabs q == 0) by (apply Qle_antisym; assumption).
  destruct (Qlt_le_dec q 0) as [Hn | Hp].
  - rewrite Qabs_neg in E by (apply Qlt_le_weak; exact Hn). lra.
  - rewrite Qabs_pos in E by exact Hp. exact E.
Qed.

(** What [round_to] returns is a number of the format. *)
Lemma round_to_in_format (prec emin emax : Z) (q r : Q) :
  (0 < prec)%Z ->
  round_to prec emin emax q = Num r -> in_format prec emin emax r.
Proof.
  intros Hp. unfold round_to.
  destruct (Qeq_bool q 0) eqn:Ez.
  { intro E. injection E as <-. left. reflexivity. }
  assert (Hq : ~ q == 0).
  { intro E. apply Qeq_bool_iff in E. congruence. }
  pose proof (Qabs_pos_of_neq Hq) as Ha.
  destruct (ilog2_spec Ha) as [He1 He2].
  set (a := Qabs q) in *. set (e := ilog2 a) in *.
  set (ex := Z.max (e - prec + 1) emin).
  set (m := rne (a / pow2 ex)).
  destruct (Qle_bool (pow2 emax) (inject_Z m * pow2 ex)) eqn:Eov.
  { destruct (Qle_bool 0 q); discriminate. }
  assert (Hov : inject_Z m * pow2 ex < pow2 emax).
  { apply Qnot_le_lt. intro Hc. apply Qle_bool_iff in Hc. congruence. }
  assert (Hm0 : (0 <= m)%Z).
  { apply rne_nonneg. apply Qle_shift_div_l; [apply pow2_pos|].
    rewrite Qmult_0_l. apply Qlt_le_weak. exact Ha. }
  assert (Hm1 : (m <= 2 ^ prec)%Z).
  { apply rne_upper.
    rewrite <- pow2_nonneg_exp by lia.
    apply Qlt_shift_div_r; [apply pow2_pos|].
    rewrite <- pow2_add.
    eapply Qlt_le_trans; [exact He2|]. apply pow2_le. lia. }
  intro E.
  assert (Hr : Qabs r == inject_Z m * pow2 ex).
  { assert (Hnn : 0 <= inject_Z m * pow2 ex).
    { apply Qmult_le_0_compat.
      - change 0 with (inject_Z 0). rewrite <- Zle_Qle. exact Hm0.
      - apply Qlt_le_weak, pow2_pos. }
    destruct (Qle_bool 0 q); injection E as <-.
    - apply Qabs_pos. exact Hnn.
    - rewrite Qabs_opp. apply Qabs_pos. exact Hnn. }
  destruct (Z.eq_dec m 0) as [Em0 | Em0].
  - left. rewrite Em0 in Hr.
    assert (E0 : Qabs r == 0) by (rewrite Hr; ring).
    destruct (Qeq_dec r 0) as [H0 | H0]; [exact H0|].
    pose proof (Qabs_pos_of_neq H0) as H1. rewrite E0 in H1. discriminate.
  - right. exists m, ex.
    split; [lia|]. split; [apply Z.le_max_r|]. split; [exact Hr|].
    rewrite Hr. exact Hov.
Qed.

(** A number of a format is unchanged by rounding into the same or a wider
    format. *)
Lemma round_to_fixed (prec emin emax prec' emin' emax' : Z) (r : Q) :
  (0 < prec' <= prec)%Z -> (emin <= emin')%Z -> (emax' <= emax)%Z ->
  in_format prec' emin' emax' r ->
  Float.same (round_to prec emin emax r) (Num r).
Proof.
  intros [Hp0 Hpp] Hemin Hemax [Hz | [m [ex [[Hm0 Hm1] [Hex [Hr Hov]]]]]].
  { unfold round_to.
    replace (Qeq_bool r 0) with true
      by (symmetry; apply Qeq_bool_iff; exact Hz).
    simpl. symmetry. exact Hz. }
  assert (Hmq : 0 < inject_Z m).
  { change 0 with (inject_Z 0). rewrite <- Zlt_Qlt. exact Hm0. }
  assert (Ha : 0 < Qabs r).
  { rewrite Hr. apply Qmult_lt_0_compat; [exact Hmq | apply pow2_pos]. }
  assert (Hrz : ~ r == 0).
  { intro E. rewrite E in Ha. discriminate. }
  unfold round_to.
  replace (Qeq_bool r 0) with false.
  2:{ symmetry. apply not_true_is_false. intro E.
      apply Qeq_bool_iff in E. exact (Hrz E). }
  destruct (ilog2_spec Ha) as [He1 He2].
  set (a := Qabs r) in *. set (e := ilog2 a) in *.
  set (ex2 := Z.max (e - prec + 1) emin).
  assert (Hpow : (2 ^ prec' <= 2 ^ prec)%Z)
    by (apply Z.pow_le_mono_r; lia).
  (* the exponent of [a] relative to [ex] *)
  assert (Hlo : (e - ex <= prec)%Z).
  { assert (H : pow2 e <= pow2 (prec + ex)).
    { eapply Qle_trans; [exact He1|]. rewrite Hr, pow2_add.
      apply Qmult_le_compat_r; [|apply Qlt_le_weak, pow2_pos].
      rewrite pow2_nonneg_exp by lia. rewrite <- Zle_Qle. lia. }
    apply pow2_le_inv in H. lia. }
  assert (Hint : exists z : Z, a / pow2 ex2 == inject_Z z).
  { destruct (Z_le_gt_dec ex2 ex) as [Hle | Hgt].
    - exists (m * 2 ^ (ex - ex2))%Z.
      rewrite inject_Z_mult, <- pow2_nonneg_exp by lia.
      rewrite Hr. replace ex with ((ex - ex2) + ex2)%Z at 1 by ring.
      rewrite pow2_add. field. apply pow2_neq_0.
    - (* then [ex2 = ex + 1] and [m = 2^prec] *)
      assert (Hex2 : ex2 = (ex + 1)%Z) by (subst ex2; lia).
      assert (He : (e = prec + ex)%Z) by (subst ex2; lia).
      assert (Hm2 : (2 ^ prec <= m)%Z).
      { rewrite Zle_Qle, <- pow2_nonneg_exp by lia.
        apply (Qmult_le_r _ _ (pow2 ex)); [apply pow2_pos|].
        rewrite <- pow2_add, <- Hr, <- He. exact He1. }
      assert (Em : m = (2 ^ prec)%Z) by lia.
      exists (2 ^ (prec - 1))%Z.
      rewrite <- pow2_nonneg_exp by lia.
      rewrite Hr, Em, Hex2, <- pow2_nonneg_exp by lia.
      replace prec with ((prec - 1) + 1)%Z at 1 by ring.
      rewrite !pow2_add. field.
      split; apply pow2_neq_0. }
  destruct Hint as [z Hz].
  rewrite (rne_inject_Z Hz).
  assert (Hr1 : inject_Z z * pow2 ex2 == a).
  { rewrite <- Hz. field. apply pow2_neq_0. }
  replace (Qle_bool (pow2 emax) (inject_Z z * pow2 ex2)) with false.
  2:{ symmetry. apply not_true_is_false. intro E.
      apply Qle_bool_iff in E. rewrite Hr1 in E.
      assert (pow2 emax' <= pow2 emax) by (apply pow2_le; exact Hemax).
      lra. }
  destruct (Qle_bool 0 r) eqn:Es; simpl; rewrite Hr1; subst a.
  - apply Qabs_pos. apply Qle_bool_iff. exact Es.
  - rewrite Qabs_neg; [ring|].
    apply Qlt_le_weak, Qnot_le_lt. intro Hc.
    apply Qle_bool_iff in Hc. congruence.
Qed.

Lemma same_trans (a b c : fval) :
  Float.same a b -> Float.same b c -> Float.same a c.
Proof.
  destruct a, b, c; simpl; try tauto. intros E1 E2. rewrite E1. exact E2.
Qed.

(** Converting a float32 value to float32 or float64 leaves it unchanged. *)
Lemma cast_float32_fixed (d : dtype) (x : fval) :
  Spec.floating d -> Float.same (cast d (cast float32 x)) (cast float32 x).
Proof.
  intros Hd. destruct x as [q| | |];
    try (destruct Hd as [E | E]; rewrite E; exact I).
  change (cast float32 (Num q)) with (binary32 q).
  destruct (binary32 q) as [r| | |] eqn:Er;
    try (destruct Hd as [E | E]; rewrite E; exact I).
  assert (Hf : in_format 24 (-149) 128 r).
  { apply (@round_to_in_format 24 (-149) 128 q r); [lia | exact Er]. }
  destruct Hd as [E | E]; rewrite E.
  - change (cast float32 (Num r)) with (round_to 24 (-149) 128 r).
    apply (@round_to_fixed 24 (-149) 128 24 (-149) 128 r); try lia.
    exact Hf.
  - change (cast float64 (Num r)) with (round_to 53 (-1074) 1024 r).
    apply (@round_to_fixed 53 (-1074) 1024 24 (-149) 128 r); try lia.
    exact Hf.
Qed.

(** A Python float is unchanged by conversion to float64. *)
Lemma round64_fixed (x : fval) :
  Float.same (cast float64 (PyNum.round64 x)) (PyNum.round64 x).
Proof.
  destruct x as [q| | |]; try exact I.
  change (PyNum.round64 (Num q)) with (binary64 q).
  destruct (binary64 q) as [r| | |] eqn:Er; try exact I.
  change (cast float64 (Num r)) with (round_to 53 (-1074) 1024 r).
  apply (@round_to_fixed 53 (-1074) 1024 53 (-1074) 1024 r); try lia.
  apply (@round_to_in_format 53 (-1074) 1024 q r); [lia | exact Er].
Qed.

Lemma float32_exact_round_trip (d : dtype) (x : fval) :
  Spec.floating d -> Spec.float32_exact x ->
  Float.same (cast d (cast float32 x)) x.
Proof.
  intros Hd Hx. eapply same_trans; [apply cast_float32_fixed; exact Hd|].
  exact Hx.
Qed.

Lemma Qtrunc_floor (q : Q) : 0 <= q -> Qtrunc q = Qfloor q.
Proof.
  intro Hq. destruct q as [n d]. unfold Qtrunc, Qfloor. cbn [Qnum Qden].
  apply Z.quot_div_nonneg; [|reflexivity].
  unfold Qle in Hq. simpl in Hq. lia.
Qed.

Lemma Qtrunc_bounds (p : Q) (T : Z) :
  0 <= p -> p < inject_Z T + 1 -> (0 <= Qtrunc p <= T)%Z.
Proof.
  intros Hp HT. rewrite (Qtrunc_floor Hp). split.
  - change 0%Z with (Qfloor 0). apply Qfloor_resp_le. exact Hp.
  - assert (H1 : inject_Z (Qfloor p) < inject_Z (T + 1)).
    { rewrite inject_Z_plus. change (inject_Z 1) with 1.
      eapply Qle_lt_trans; [apply Qfloor_le | exact HT]. }
    rewrite <- Zlt_Qlt in H1. lia.
Qed.

(** A uint8 value survives the conversion to float32 and back. *)
Lemma uint8_round_trip (z : Z) :
  (0 <= z <= 255)%Z -> cast uint8 (cast float32 (of_Z z)) = of_Z z.
Proof.
  intros [Hz0 Hz1].
  destruct (Z.eq_dec z 0) as [-> | Hz]; [reflexivity|].
  assert (Hq : 1 <= inject_Z z).
  { change 1 with (inject_Z 1). rewrite <- Zle_Qle. lia. }
  assert (Hf : in_format 24 (-149) 128 (inject_Z z)).
  { right. exists z, 0%Z.
    split; [split; [lia|]|]; [| split; [lia|]; split].
    - apply Z.le_trans with 255%Z; [exact Hz1 | discriminate].
    - rewrite Qabs_pos by lra. change (pow2 0) with 1. ring.
    - rewrite Qabs_pos by lra.
      apply Qle_lt_trans with (inject_Z 255).
      + rewrite <- Zle_Qle. exact Hz1.
      + reflexivity. }
  pose proof (@round_to_fixed 24 (-149) 128 24 (-149) 128 (inject_Z z)
                ltac:(lia) ltac:(lia) ltac:(lia) Hf) as Hs.
  unfold of_Z. change (cast float32 (Num (inject_Z z)))
    with (round_to 24 (-149) 128 (inject_Z z)).
  destruct (round_to 24 (-149) 128 (inject_Z z)) as [r| | |];
    try contradiction.
  simpl in Hs. simpl cast. unfold of_Z. do 2 f_equal.
  rewrite Qtrunc_floor by (rewrite Hs; lra).
  rewrite Hs, Qfloor_Z. apply Z.mod_small. lia.
Qed.

End Formats.

(** *** The example views satisfy the data-model invariant *)

Lemma view11_valid : Spec.valid_view Examples.view11.
Proof.
  constructor; try reflexivity.
  - left. reflexivity.
  - intros i j. right. reflexivity.
Defined.

Lemma view22_valid : Spec.valid_view Examples.view22.
Proof.
  constructor; try reflexivity.
  - left. reflexivity.
  - intros i j. right. reflexivity.
Defined.


(** *** Range test *)

Section Comparisons.

Local Open Scope Q_scope.

Lemma ge_zero_within (v : fval) (hi : Z) :
  ge v zero && Float.le v (of_Z hi) = true <-> Spec.within 0 hi v.
Proof.
  unfold ge, zero, of_Z.
  destruct v as [q| | |]; simpl; try (split; [discriminate | tauto]).
  rewrite andb_true_iff, !Qle_bool_iff. tauto.
Qed.

Lemma within_lower (hi : Z) : (0 <= hi)%Z -> Spec.within 0 hi zero.
Proof.
  intro Hhi. simpl. split; [apply Qle_refl|].
  change 0 with (inject_Z 0). rewrite <- Zle_Qle. exact Hhi.
Qed.

Lemma within_upper (hi : Z) : (0 <= hi)%Z -> Spec.within 0 hi (of_Z hi).
Proof.
  intro Hhi. simpl. split; [|apply Qle_refl].
  rewrite <- Zle_Qle. exact Hhi.
Qed.

End Comparisons.

Section InRange.

Variable v : Image.t.

Let H := rows (Image.bitmap v).
Let W := cols (Image.bitmap v).

Lemma in_range_mask_cons (p : fval * fval) (xy : list (fval * fval)) :
  Image.in_range_mask v (p :: xy)
  = (ge (fst p) zero && ge (snd p) zero
     && Float.le (fst p) (of_Z (Z.of_nat W))
     && Float.le (snd p) (of_Z (Z.of_nat H)))
      :: Image.in_range_mask v xy.
Proof. destruct p. reflexivity. Qed.

Lemma in_range_mask_nil : Image.in_range_mask v [] = [].
Proof. reflexivity. Qed.

Lemma in_range_within (x y : fval) :
  ge x zero && ge y zero
  && Float.le x (of_Z (Z.of_nat W)) && Float.le y (of_Z (Z.of_nat H)) = true
  <-> Spec.within 0 (Z.of_nat W) x /\ Spec.within 0 (Z.of_nat H) y.
Proof.
  rewrite <- !ge_zero_within.
  rewrite !andb_true_iff. tauto.
Qed.

Lemma in_range_mask_length (xy : list (fval * fval)) :
  List.length (Image.in_range_mask v xy) = List.length xy.
Proof. unfold Image.in_range_mask. simpl. apply length_map. Qed.

End InRange.

(** C4.  For a view of spatial shape (H, W), [in_range_mask] marks a
    coordinate (x, y) true exactly when 0 <= x <= W and 0 <= y <= H, both
    bounds inclusive; the result does not depend on the validity mask (nor
    on the depth raster); (0,0) and (W,H) are in range and (W + 1e-6, 0) is
    out of range. *)
Theorem in_range_mask_inclusive_bounds (v : Image.t) (xy : list (fval * fval)) :
  let H := Z.of_nat (rows (Image.bitmap v)) in
  let W := Z.of_nat (cols (Image.bitmap v)) in
  Forall2 (fun p b => b = true <->
                      Spec.within 0 W (fst p) /\ Spec.within 0 H (snd p))
          xy (Image.in_range_mask v xy)
  /\ (forall (m : tensor2) (d : tensor3),
        Image.in_range_mask
          (Image.Build (Image.K v) (Image.R v) (Image.T v) d
             (Image.bitmap v) m) xy
        = Image.in_range_mask v xy)
  /\ Image.in_range_mask v [(zero, zero)] = [true]
  /\ Image.in_range_mask v [(of_Z W, of_Z H)] = [true]
  /\ Image.in_range_mask v [(Num (inject_Z W + (1 # 1000000)), zero)]
     = [false].
Proof.
  intros H W. repeat split.
  - induction xy as [|p xy IH].
    + constructor.
    + rewrite in_range_mask_cons. constructor; [|exact IH].
      apply in_range_within.
  - rewrite in_range_mask_cons, in_range_mask_nil. f_equal.
    apply in_range_within.
    split; apply within_lower, Nat2Z.is_nonneg.
  - rewrite in_range_mask_cons, in_range_mask_nil. f_equal.
    apply in_range_within.
    split; apply within_upper, Nat2Z.is_nonneg.
  - rewrite in_range_mask_cons, in_range_mask_nil. f_equal.
    apply not_true_is_false. intro E.
    apply in_range_within in E. destruct E as [[_ E] _]. simpl in E.
    fold W in E. lra.
Qed.

(** C10.  A coordinate with a non-finite component (NaN, +infinity or
    -infinity) is marked false by [in_range_mask] alone: the bounds check
    already excludes it, before [fetch_depth] tests finiteness. *)
Theorem in_range_mask_rejects_non_finite
  (v : Image.t) (xy : list (fval * fval)) (i : nat) (x y : fval) :
  nth_error xy i = Some (x, y) ->
  isfinite x = false \/ isfinite y = false ->
  nth_error (Image.in_range_mask v xy) i = Some false.
Proof.
  intros Hi Hnf. unfold Image.in_range_mask. simpl.
  rewrite (map_nth_error _ _ _ Hi). f_equal.
  unfold ge, of_Z, zero.
  destruct Hnf as [Hx | Hy].
  - destruct x; try discriminate; destruct y; simpl;
      rewrite ?andb_false_r; try reflexivity;
      destruct (Qle_bool 0 q); reflexivity.
  - destruct y; try discriminate; destruct x; simpl;
      rewrite ?andb_false_r; reflexivity.
Qed.

Lemma in_range_mask_rejects_non_finite_witness :
  nth_error (Image.in_range_mask Examples.view22
               [(Num 1, Num 1); (PosInf, zero); (zero, NaN)]) 1
  = Some false.
Proof.
  apply (in_range_mask_rejects_non_finite Examples.view22 _ 1
           (x := PosInf) (y := zero)).
  - reflexivity.
  - left. reflexivity.
Defined.

(** *** Construction *)

(** C7, as the code has it.  [__init__] checks no extent and never fails:
    for every K, R, T, bitmap, depth and optional mask it returns a view that
    stores the arguments as given, the mask converted to bool, or an all-true
    mask of the bitmap's extent when none is supplied. *)
Theorem init_never_fails
  (K : matrix) (R : mat3) (T : vec3) (bitmap depth : tensor3)
  (mask : option tensor2) :
  exists v : Image.t,
    Image.__init__ K R T bitmap depth mask = Ok v
    /\ Image.K v = K /\ Image.R v = R /\ Image.T v = T
    /\ Image.bitmap v = bitmap /\ Image.depth v = depth
    /\ Image.mask v = match mask with
                      | None => ones_bool (rows bitmap) (cols bitmap)
                      | Some m => to2 torch_bool m
                      end.
Proof.
  eexists. split; [reflexivity|]. simpl. repeat split.
Qed.

(** C7 fails as stated: a 2 x 2 bitmap with a 1 x 1 depth raster, and a
    2 x 2 bitmap with a 1 x 1 mask, are both accepted. *)
Lemma init_accepts_mismatched_extents :
  let bitmap := Examples.ramp float32 3 2 2 0 in
  let depth := Examples.ramp float32 1 1 1 5 in
  let depth' := Examples.ramp float32 1 2 2 5 in
  let mask := Examples.all_true 1 1 in
  (rows bitmap, cols bitmap) <> (rows depth, cols depth)
  /\ (rows bitmap, cols bitmap) <> (rows2 mask, cols2 mask)
  /\ (exists v, Image.__init__ Examples.K0 Examples.R0 Examples.T0
                  bitmap depth None = Ok v)
  /\ (exists v, Image.__init__ Examples.K0 Examples.R0 Examples.T0
                  bitmap depth' (Some mask) = Ok v).
Proof.
  simpl. repeat split; try discriminate; eexists; reflexivity.
Qed.

(** *** Depth lookup *)

Lemma norm_index_inside (dim : nat) (i : Z) :
  (0 <= i < Z.of_nat dim)%Z -> norm_index dim i = Ok (Z.to_nat i).
Proof.
  intros [Hlo Hhi]. unfold norm_index.
  apply Z.leb_le in Hlo. apply Z.ltb_lt in Hhi.
  rewrite Hlo, Hhi. reflexivity.
Qed.

Lemma norm_index_extent (dim : nat) :
  norm_index dim (Z.of_nat dim) = Raise IndexError.
Proof.
  unfold norm_index.
  rewrite Z.ltb_irrefl, andb_false_r.
  replace (Z.of_nat dim <? 0)%Z with false
    by (symmetry; apply Z.ltb_ge, Nat2Z.is_nonneg).
  rewrite andb_false_r. reflexivity.
Qed.

Lemma norm_index_cases (dim : nat) (i : Z) :
  (exists n, norm_index dim i = Ok n) \/ norm_index dim i = Raise IndexError.
Proof.
  unfold norm_index.
  destruct ((0 <=? i) && (i <? Z.of_nat dim))%Z; [left; eexists; reflexivity|].
  destruct ((- Z.of_nat dim <=? i) && (i <? 0))%Z;
    [left; eexists; reflexivity | right; reflexivity].
Qed.

Lemma Qtrunc_inject_Z (z : Z) : Qtrunc (inject_Z z) = z.
Proof. unfold Qtrunc. simpl. apply Z.quot_1_r. Qed.

Section FetchDepth.

Variable v : Image.t.

Let D := Image.depth v.

Let index_of (p : fval * fval) : Z * Z :=
  let '(x, y) := p in (to_int64 y, to_int64 x).

Lemma valid_unfold (p : fval * fval) :
  Spec.valid v p
  = hd false (Image.in_range_mask v [p])
    && (isfinite (fst p) && isfinite (snd p)).
Proof.
  unfold Spec.valid. rewrite in_range_mask_cons, in_range_mask_nil.
  simpl. symmetry. apply andb_assoc.
Qed.

Lemma valid_depth_map (xy : list (fval * fval)) :
  map (fun '(a, b) => a && b)
      (combine (Image.in_range_mask v xy)
               (map (fun '(x, y) => isfinite x && isfinite y) xy))
  = map (Spec.valid v) xy.
Proof.
  induction xy as [|[x y] xy IH]; [reflexivity|].
  rewrite in_range_mask_cons. simpl map. simpl combine. simpl map.
  rewrite IH. f_equal.
  rewrite valid_unfold, in_range_mask_cons. reflexivity.
Qed.

Lemma gather_masked (c : nat) (fill : fval) (xy : list (fval * fval)) :
  (forall p, In p xy -> Spec.valid v p = true ->
     (0 <= to_int64 (snd p) < Z.of_nat (rows D))%Z
     /\ (0 <= to_int64 (fst p) < Z.of_nat (cols D))%Z) ->
  exists vals,
    gather D c (map index_of (select_cols xy (map (Spec.valid v) xy)))
    = Ok vals
    /\ Forall2
         (fun p d =>
            d = if Spec.valid v p
                then at3 D c (Z.to_nat (to_int64 (snd p)))
                       (Z.to_nat (to_int64 (fst p)))
                else fill)
         xy
         (masked_assign (repeat fill (List.length xy))
            (map (Spec.valid v) xy) vals).
Proof.
  induction xy as [|p xy IH]; intros Hin.
  - exists []. split; [reflexivity | constructor].
  - destruct IH as [vals [Hg Hf]].
    { intros q Hq. apply Hin. right. exact Hq. }
    simpl map. simpl select_cols. simpl repeat.
    destruct (Spec.valid v p) eqn:Hv.
    + destruct (Hin p (or_introl eq_refl) Hv) as [Hy Hx].
      destruct p as [x y]. simpl in Hy, Hx.
      exists (at3 D c (Z.to_nat (to_int64 y)) (Z.to_nat (to_int64 x))
                :: vals).
      split.
      * simpl. rewrite (norm_index_inside _ Hy), (norm_index_inside _ Hx).
        simpl. fold index_of. rewrite Hg. reflexivity.
      * simpl. constructor; [|exact Hf]. rewrite Hv. reflexivity.
    + exists vals. split; [exact Hg|].
      simpl. constructor; [|exact Hf]. rewrite Hv. reflexivity.
Qed.

End FetchDepth.

Lemma cast_floating_NaN (d : dtype) : Spec.floating d -> cast d NaN = NaN.
Proof. intros [E | E]; rewrite E; reflexivity. Qed.

Lemma floating_is_floating (d : dtype) :
  Spec.floating d <-> is_floating d = true.
Proof.
  unfold Spec.floating. destruct d; cbn [is_floating]; split;
    try (intros [E | E]; discriminate); try discriminate;
    intros _; auto.
Qed.

Lemma full_NaN_floating (n : nat) (d : dtype) :
  Spec.floating d -> full_NaN n d = Ok (repeat NaN n).
Proof.
  intro Hfl. apply floating_is_floating in Hfl. unfold full_NaN.
  rewrite Hfl. reflexivity.
Qed.

Lemma full_NaN_not_floating (n : nat) (d : dtype) :
  ~ Spec.floating d -> full_NaN n d = Raise RuntimeError.
Proof.
  intro Hnf. unfold full_NaN. destruct (is_floating d) eqn:E; [|reflexivity].
  exfalso. apply Hnf. apply floating_is_floating. exact E.
Qed.

Lemma boundary_is_valid (v : Image.t) :
  Spec.valid v (of_Z (Z.of_nat (cols (Image.bitmap v))), zero) = true.
Proof.
  rewrite valid_unfold, in_range_mask_cons, in_range_mask_nil.
  simpl. rewrite andb_true_r.
  assert (Ew : Qle_bool 0 (inject_Z (Z.of_nat (cols (Image.bitmap v))))
               = true).
  { apply Qle_bool_iff. change 0%Q with (inject_Z 0).
    rewrite <- Zle_Qle. apply Nat2Z.is_nonneg. }
  assert (Eh : Qle_bool 0 (inject_Z (Z.of_nat (rows (Image.bitmap v))))
               = true).
  { apply Qle_bool_iff. change 0%Q with (inject_Z 0).
    rewrite <- Zle_Qle. apply Nat2Z.is_nonneg. }
  unfold ge, of_Z, zero. simpl.
  rewrite Ew, Eh.
  replace (Qle_bool (inject_Z (Z.of_nat (cols (Image.bitmap v))))
             (inject_Z (Z.of_nat (cols (Image.bitmap v))))) with true
    by (symmetry; apply Qle_bool_iff, Qle_refl).
  reflexivity.
Qed.

(** C3, at the inclusive boundary.  On a view whose rasters share the extent
    (H, W), the coordinate (W, 0) passes [in_range_mask] and the finiteness
    test, its column index truncates to W, one past the last column, and
    [fetch_depth] raises [IndexError] instead of returning NaN. *)
Theorem fetch_depth_boundary_raises (v : Image.t) :
  Spec.valid_view v ->
  Spec.valid v (of_Z (Z.of_nat (cols (Image.bitmap v))), zero) = true
  /\ Image.fetch_depth v [(of_Z (Z.of_nat (cols (Image.bitmap v))), zero)]
     = Raise IndexError.
Proof.
  intros Hv. split; [apply boundary_is_valid|].
  unfold Image.fetch_depth. rewrite valid_depth_map.
  rewrite (@full_NaN_floating _ _ (Spec.depth_floating Hv)).
  cbn [Py.bind].
  simpl map. rewrite boundary_is_valid. simpl select_cols. simpl map.
  unfold index3.
  rewrite (norm_index_inside (chans (Image.depth v)) (i := 0))
    by (rewrite (Spec.depth_chans Hv); lia).
  simpl Py.bind. unfold of_Z, zero. simpl to_int64.
  rewrite Qtrunc_inject_Z. change (Qtrunc 0) with 0%Z.
  simpl gather.
  rewrite <- (Spec.depth_cols Hv), norm_index_extent.
  destruct (norm_index_cases (rows (Image.depth v)) 0) as [[n E] | E];
    rewrite E; reflexivity.
Qed.

Lemma fetch_depth_boundary_raises_witness :
  Spec.valid Examples.view11 (Num 1, zero) = true
  /\ Image.fetch_depth Examples.view11 [(Num 1, zero)] = Raise IndexError.
Proof. exact (fetch_depth_boundary_raises view11_valid). Defined.

(** *** Padding *)

Ltac z_bool :=
  repeat match goal with
    | |- context [(?a <? ?b)%Z] => destruct (Z.ltb_spec a b)
    | |- context [(?a <=? ?b)%Z] => destruct (Z.leb_spec a b)
    | |- context [(?a =? ?b)%Z] => destruct (Z.eqb_spec a b)
    end.

Lemma _pad_spec (t : tensor3) (Ht Wt : Z) (value : fval) :
  (0 < Ht)%Z -> (0 < Wt)%Z ->
  exists p,
    _pad t (Ht, Wt) value = Ok p
    /\ dtype3 p = dtype3 t /\ chans p = chans t
    /\ Z.of_nat (rows p) = Ht /\ Z.of_nat (cols p) = Wt
    /\ forall c i j,
         at3 p c i j
         = cast (dtype3 t)
             (if ((i <? rows t) && (j <? cols t))%nat
              then cast float32 (at3 t c i j)
              else cast float32 value).
Proof.
  intros HH HW. unfold _pad, F_pad. simpl fst. simpl snd.
  cbn [to3 rows cols chans dtype3 at3].
  replace (Z.of_nat (cols t) + 0 + (Wt - Z.of_nat (cols t)))%Z with Wt by lia.
  replace (Z.of_nat (rows t) + 0 + (Ht - Z.of_nat (rows t)))%Z with Ht by lia.
  replace (Z.min 0 0) with 0%Z by reflexivity.
  assert (E1 : ((Z.of_nat (cols t) + 0 <? 0) || (Wt <? 0)
                || (Z.of_nat (rows t) + 0 <? 0) || (Ht <? 0))%Z = false).
  { z_bool; try lia; reflexivity. }
  rewrite E1.
  cbn [Py.bind to3 rows cols chans dtype3 at3].
  rewrite !Z2Nat.id by lia. rewrite !Z.eqb_refl.
  cbn [andb Py.assert Py.bind].
  eexists. split; [reflexivity|].
  cbn [to3 rows cols chans dtype3 at3].
  repeat split; try (apply Z2Nat.id; lia).
  intros c i j. f_equal.
  rewrite !Z.sub_0_r, !Nat2Z.id.
  destruct (Nat.ltb_spec i (rows t)); destruct (Nat.ltb_spec j (cols t));
    z_bool; try lia; reflexivity.
Qed.

Lemma _pad_never_asserts (t : tensor3) (size : Z * Z) (value : fval) :
  _pad t size value <> Raise AssertionError.
Proof.
  destruct size as [Ht Wt]. unfold _pad, F_pad. simpl fst. simpl snd.
  cbn [to3 rows cols chans dtype3 at3].
  replace (Z.of_nat (cols t) + 0 + (Wt - Z.of_nat (cols t)))%Z with Wt by lia.
  replace (Z.of_nat (rows t) + 0 + (Ht - Z.of_nat (rows t)))%Z with Ht by lia.
  destruct (Z.ltb_spec Wt 0); [rewrite ?orb_true_r; discriminate|].
  destruct (Z.ltb_spec Ht 0); [rewrite ?orb_true_r; discriminate|].
  match goal with
  | |- context [if ?b then _ else _] => destruct b; [discriminate|]
  end.
  cbn [Py.bind to3 rows cols chans dtype3 at3].
  rewrite !Z2Nat.id by lia. rewrite !Z.eqb_refl.
  discriminate.
Qed.

Lemma pad_unfold (v : Image.t) (size : Z * Z) (b d m : tensor3) :
  _pad (Image.bitmap v) size zero = Ok b ->
  _pad (Image.depth v) size NaN = Ok d ->
  _pad (unsqueeze0 (Image.mask v)) size zero = Ok m ->
  chans m = 1%nat ->
  Image.pad v size
  = Ok (Image.Build (Image.K v) (Image.R v) (Image.T v) d b
          (to2 torch_bool
             (Tensor2 (dtype3 m) (rows m) (cols m)
                (fun i j => at3 m 0 i j)))).
Proof.
  intros Eb Ed Em Ec. unfold Image.pad. rewrite Eb, Ed, Em.
  cbn [Py.bind]. unfold select0. rewrite Ec. reflexivity.
Qed.

Lemma pad_never_asserts (v : Image.t) (size : Z * Z) :
  Image.pad v size <> Raise AssertionError.
Proof.
  unfold Image.pad. intro E.
  destruct (_pad (Image.bitmap v) size zero) as [b | e] eqn:Eb;
    [| cbn [Py.bind] in E; injection E as E; subst e;
       exact (_pad_never_asserts _ _ _ Eb)].
  destruct (_pad (Image.depth v) size NaN) as [d | e] eqn:Ed;
    [| cbn [Py.bind] in E; injection E as E; subst e;
       exact (_pad_never_asserts _ _ _ Ed)].
  destruct (_pad (unsqueeze0 (Image.mask v)) size zero) as [m | e] eqn:Em;
    [| cbn [Py.bind] in E; injection E as E; subst e;
       exact (_pad_never_asserts _ _ _ Em)].
  cbn [Py.bind] in E. unfold select0 in E.
  destruct (0 <? chans m)%nat; discriminate.
Qed.

(** C8, as the code has it.  [pad] never fails its shape assertion.  For a
    target with Ht >= 1 and Wt >= 1 it succeeds and returns rasters of shape
    exactly (Ht, Wt), also when Ht < H or Wt < W: a raster larger than the
    target is cropped to its leading Ht rows and Wt columns.  Wherever the
    target and the original raster overlap, the bitmap, the depth raster and
    the mask of the result hold the original entry (after the conversion
    through float32 and back that [_pad] applies, and [bool()] for the
    mask). *)
Theorem pad_crops_instead_of_failing (v : Image.t) (Ht Wt : Z) :
  (0 < Ht)%Z -> (0 < Wt)%Z ->
  (forall size, Image.pad v size <> Raise AssertionError)
  /\ exists v',
       Image.pad v (Ht, Wt) = Ok v'
       /\ (Z.of_nat (rows (Image.bitmap v')) = Ht
           /\ Z.of_nat (cols (Image.bitmap v')) = Wt)
       /\ (Z.of_nat (rows (Image.depth v')) = Ht
           /\ Z.of_nat (cols (Image.depth v')) = Wt)
       /\ (Z.of_nat (rows2 (Image.mask v')) = Ht
           /\ Z.of_nat (cols2 (Image.mask v')) = Wt)
       /\ (forall c i j,
             (Z.of_nat i < Ht)%Z -> (Z.of_nat j < Wt)%Z ->
             (i < rows (Image.bitmap v))%nat ->
             (j < cols (Image.bitmap v))%nat ->
             at3 (Image.bitmap v') c i j
             = cast (dtype3 (Image.bitmap v))
                 (cast float32 (at3 (Image.bitmap v) c i j)))
       /\ (forall c i j,
             (Z.of_nat i < Ht)%Z -> (Z.of_nat j < Wt)%Z ->
             (i < rows (Image.depth v))%nat ->
             (j < cols (Image.depth v))%nat ->
             at3 (Image.depth v') c i j
             = cast (dtype3 (Image.depth v))
                 (cast float32 (at3 (Image.depth v) c i j)))
       /\ (forall i j,
             (Z.of_nat i < Ht)%Z -> (Z.of_nat j < Wt)%Z ->
             (i < rows2 (Image.mask v))%nat ->
             (j < cols2 (Image.mask v))%nat ->
             at2 (Image.mask v') i j
             = cast torch_bool
                 (cast (dtype2 (Image.mask v))
                    (cast float32 (at2 (Image.mask v) i j)))).
Proof.
  intros HH HW. split; [apply pad_never_asserts|].
  destruct (_pad_spec (Image.bitmap v) zero HH HW)
    as [b [Eb [_ [_ [Hbr [Hbc Hb]]]]]].
  destruct (_pad_spec (Image.depth v) NaN HH HW)
    as [d [Ed [_ [_ [Hdr [Hdc Hd]]]]]].
  destruct (_pad_spec (unsqueeze0 (Image.mask v)) zero HH HW)
    as [m [Em [_ [Hmch [Hmr [Hmc Hm]]]]]].
  eexists. split; [exact (pad_unfold v _ Eb Ed Em Hmch)|].
  cbn [Image.bitmap Image.depth Image.mask to2 rows2 cols2 at2].
  repeat split; try assumption.
  - intros c i j _ _ Hi Hj. rewrite Hb.
    apply Nat.ltb_lt in Hi. apply Nat.ltb_lt in Hj. rewrite Hi, Hj.
    reflexivity.
  - intros c i j _ _ Hi Hj. rewrite Hd.
    apply Nat.ltb_lt in Hi. apply Nat.ltb_lt in Hj. rewrite Hi, Hj.
    reflexivity.
  - intros i j _ _ Hi Hj. rewrite Hm.
    cbn [unsqueeze0 dtype3 rows cols at3].
    apply Nat.ltb_lt in Hi. apply Nat.ltb_lt in Hj. rewrite Hi, Hj.
    reflexivity.
Qed.

Lemma pad_crops_instead_of_failing_witness :
  (forall size, Image.pad Examples.view22 size <> Raise AssertionError)
  /\ exists v',
       Image.pad Examples.view22 (1, 1)%Z = Ok v'
       /\ (Z.of_nat (rows (Image.bitmap v')) = 1
           /\ Z.of_nat (cols (Image.bitmap v')) = 1)%Z
       /\ (Z.of_nat (rows (Image.depth v')) = 1
           /\ Z.of_nat (cols (Image.depth v')) = 1)%Z
       /\ (Z.of_nat (rows2 (Image.mask v')) = 1
           /\ Z.of_nat (cols2 (Image.mask v')) = 1)%Z
       /\ (forall c i j,
             (Z.of_nat i < 1)%Z -> (Z.of_nat j < 1)%Z ->
             (i < rows (Image.bitmap Examples.view22))%nat ->
             (j < cols (Image.bitmap Examples.view22))%nat ->
             at3 (Image.bitmap v') c i j
             = cast (dtype3 (Image.bitmap Examples.view22))
                 (cast float32 (at3 (Image.bitmap Examples.view22) c i j)))
       /\ (forall c i j,
             (Z.of_nat i < 1)%Z -> (Z.of_nat j < 1)%Z ->
             (i < rows (Image.depth Examples.view22))%nat ->
             (j < cols (Image.depth Examples.view22))%nat ->
             at3 (Image.depth v') c i j
             = cast (dtype3 (Image.depth Examples.view22))
                 (cast float32 (at3 (Image.depth Examples.view22) c i j)))
       /\ (forall i j,
             (Z.of_nat i < 1)%Z -> (Z.of_nat j < 1)%Z ->
             (i < rows2 (Image.mask Examples.view22))%nat ->
             (j < cols2 (Image.mask Examples.view22))%nat ->
             at2 (Image.mask v') i j
             = cast torch_bool
                 (cast (dtype2 (Image.mask Examples.view22))
                    (cast float32 (at2 (Image.mask Examples.view22) i j)))).
Proof.
  apply (pad_crops_instead_of_failing Examples.view22 (Ht := 1) (Wt := 1));
    reflexivity.
Defined.

(** C8 fails as stated: padding the 2 x 2 view to the smaller target (1, 1)
    raises nothing and returns a 1 x 1 view. *)
Lemma pad_to_smaller_target_succeeds :
  (1 < Z.of_nat (rows (Image.bitmap Examples.view22)))%Z
  /\ exists v',
       Image.pad Examples.view22 (1, 1)%Z = Ok v'
       /\ Image.shape v' = (1, 1)%nat.
Proof.
  split; [reflexivity|]. eexists. split; reflexivity.
Qed.

Lemma bool_round_trip (x : fval) :
  x = zero \/ x = one ->
  cast torch_bool (cast torch_bool (cast float32 x)) = x.
Proof. intros [E | E]; rewrite E; vm_compute; reflexivity. Qed.

(** C9, as the code has it.  For a view of shape (H, W) and a target with
    Ht >= H and Wt >= W, [pad] returns a view whose rasters have shape exactly
    (Ht, Wt).  In the top-left (H, W) region every bitmap and depth element
    is the original one converted to float32 and back to the raster's dtype:
    it is the original value in a floating raster whenever float32
    represents that value exactly, and in a uint8 raster.  Every mask element
    of the region is the original one.  The appended depth region is NaN,
    the appended mask region is false, and K, R and T are those of the
    original view. *)
Theorem pad_contents (v : Image.t) (Ht Wt : Z) :
  let H := rows (Image.bitmap v) in
  let W := cols (Image.bitmap v) in
  Spec.valid_view v ->
  (0 < Ht)%Z -> (0 < Wt)%Z -> (Z.of_nat H <= Ht)%Z -> (Z.of_nat W <= Wt)%Z ->
  exists v',
    Image.pad v (Ht, Wt) = Ok v'
    /\ (Z.of_nat (rows (Image.bitmap v')) = Ht
        /\ Z.of_nat (cols (Image.bitmap v')) = Wt
        /\ Z.of_nat (rows (Image.depth v')) = Ht
        /\ Z.of_nat (cols (Image.depth v')) = Wt
        /\ Z.of_nat (rows2 (Image.mask v')) = Ht
        /\ Z.of_nat (cols2 (Image.mask v')) = Wt)
    /\ (forall c i j, (i < H)%nat -> (j < W)%nat ->
          at3 (Image.bitmap v') c i j
          = cast (dtype3 (Image.bitmap v))
              (cast float32 (at3 (Image.bitmap v) c i j))
          /\ at3 (Image.depth v') c i j
             = cast (dtype3 (Image.depth v))
                 (cast float32 (at3 (Image.depth v) c i j))
          /\ at2 (Image.mask v') i j = at2 (Image.mask v) i j)
    /\ (forall c i j, (i < H)%nat -> (j < W)%nat ->
          (Spec.floating (dtype3 (Image.bitmap v)) ->
           Spec.float32_exact (at3 (Image.bitmap v) c i j) ->
           Float.same (at3 (Image.bitmap v') c i j)
             (at3 (Image.bitmap v) c i j))
          /\ (dtype3 (Image.bitmap v) = uint8 ->
              forall z, (0 <= z <= 255)%Z ->
              at3 (Image.bitmap v) c i j = of_Z z ->
              at3 (Image.bitmap v') c i j = of_Z z)
          /\ (Spec.float32_exact (at3 (Image.depth v) c i j) ->
              Float.same (at3 (Image.depth v') c i j)
                (at3 (Image.depth v) c i j)))
    /\ (forall c i j, (H <= i)%nat \/ (W <= j)%nat ->
          at3 (Image.depth v') c i j = NaN
          /\ at2 (Image.mask v') i j = zero)
    /\ Image.K v' = Image.K v
    /\ Image.R v' = Image.R v
    /\ Image.T v' = Image.T v.
Proof.
  intros H W Hv HH HW HHle HWle.
  destruct (_pad_spec (Image.bitmap v) zero HH HW)
    as [b [Eb [_ [_ [Hbr [Hbc Hb]]]]]].
  destruct (_pad_spec (Image.depth v) NaN HH HW)
    as [d [Ed [_ [_ [Hdr [Hdc Hd]]]]]].
  destruct (_pad_spec (unsqueeze0 (Image.mask v)) zero HH HW)
    as [m [Em [Hmd [Hmch [Hmr [Hmc Hm]]]]]].
  eexists. split; [exact (pad_unfold v _ Eb Ed Em Hmch)|].
  cbn [Image.bitmap Image.depth Image.mask Image.K Image.R Image.T
       to2 rows2 cols2 at2].
  split; [repeat split; assumption|].
  rewrite (Spec.depth_rows Hv), (Spec.depth_cols Hv) in Hd.
  cbn [unsqueeze0 rows cols dtype3 at3] in Hm.
  rewrite (Spec.mask_rows Hv), (Spec.mask_cols Hv), (Spec.mask_dtype Hv)
    in Hm.
  fold H W in Hb, Hd, Hm.
  split; [|split; [|split; [|repeat split]]].
  - intros c i j Hi Hj.
    apply Nat.ltb_lt in Hi, Hj.
    rewrite Hb, Hd, Hm, Hi, Hj. cbn [andb].
    repeat split. apply bool_round_trip, (Spec.mask_values Hv).
  - intros c i j Hi Hj.
    apply Nat.ltb_lt in Hi, Hj.
    rewrite Hb, Hd, Hi, Hj. cbn [andb]. split; [|split].
    + intros Hfl Hx. exact (@float32_exact_round_trip _ _ Hfl Hx).
    + intros Hu z Hz Ez. rewrite Hu, Ez. apply uint8_round_trip, Hz.
    + intros Hx.
      exact (@float32_exact_round_trip _ _ (Spec.depth_floating Hv) Hx).
  - intros c i j Hout.
    assert (E : ((i <? H) && (j <? W))%nat = false).
    { apply andb_false_iff.
      destruct Hout; [left | right]; apply Nat.ltb_ge; assumption. }
    rewrite Hd, Hm, E. split.
    + apply (cast_floating_NaN (Spec.depth_floating Hv)).
    + reflexivity.
Qed.

Lemma pad_contents_witness :
  exists v',
    Image.pad Examples.view22 (3, 4)%Z = Ok v'
    /\ (Z.of_nat (rows (Image.bitmap v')) = 3
        /\ Z.of_nat (cols (Image.bitmap v')) = 4
        /\ Z.of_nat (rows (Image.depth v')) = 3
        /\ Z.of_nat (cols (Image.depth v')) = 4
        /\ Z.of_nat (rows2 (Image.mask v')) = 3
        /\ Z.of_nat (cols2 (Image.mask v')) = 4)%Z
    /\ (forall c i j, (i < 2)%nat -> (j < 2)%nat ->
          at3 (Image.bitmap v') c i j
          = cast (dtype3 (Image.bitmap Examples.view22))
              (cast float32 (at3 (Image.bitmap Examples.view22) c i j))
          /\ at3 (Image.depth v') c i j
             = cast (dtype3 (Image.depth Examples.view22))
                 (cast float32 (at3 (Image.depth Examples.view22) c i j))
          /\ at2 (Image.mask v') i j = at2 (Image.mask Examples.view22) i j)
    /\ (forall c i j, (i < 2)%nat -> (j < 2)%nat ->
          (Spec.floating (dtype3 (Image.bitmap Examples.view22)) ->
           Spec.float32_exact (at3 (Image.bitmap Examples.view22) c i j) ->
           Float.same (at3 (Image.bitmap v') c i j)
             (at3 (Image.bitmap Examples.view22) c i j))
          /\ (dtype3 (Image.bitmap Examples.view22) = uint8 ->
              forall z, (0 <= z <= 255)%Z ->
              at3 (Image.bitmap Examples.view22) c i j = of_Z z ->
              at3 (Image.bitmap v') c i j = of_Z z)
          /\ (Spec.float32_exact (at3 (Image.depth Examples.view22) c i j) ->
              Float.same (at3 (Image.depth v') c i j)
                (at3 (Image.depth Examples.view22) c i j)))
    /\ (forall c i j, (2 <= i)%nat \/ (2 <= j)%nat ->
          at3 (Image.depth v') c i j = NaN
          /\ at2 (Image.mask v') i j = zero)
    /\ Image.K v' = Image.K Examples.view22
    /\ Image.R v' = Image.R Examples.view22
    /\ Image.T v' = Image.T Examples.view22.
Proof.
  apply (@pad_contents Examples.view22 3 4 view22_valid); simpl; lia.
Defined.

(** C9 fails as stated: padding the view whose float64 depth raster stores
    the double nearest to 0.1 returns a depth raster whose top-left element
    is a different number, the float32 nearest to it. *)
Lemma pad_changes_float64_depth :
  exists v',
    Image.pad Examples.view_f64 (3, 3)%Z = Ok v'
    /\ ~ Float.same (at3 (Image.depth v') 0 0 0)
           (at3 (Image.depth Examples.view_f64) 0 0 0).
Proof.
  eexists. split; [reflexivity|].
  vm_compute. intro E. discriminate E.
Qed.

(** *** Scaling *)

Section ScaleSize.

Local Open Scope Q_scope.

Let u : Q := 1 # 9007199254740992.
Let B : Z := 2147483648.

Lemma inject_Z_pos (n : Z) : (0 < n)%Z -> 1 <= inject_Z n.
Proof. intro Hn. change 1 with (inject_Z 1). rewrite <- Zle_Qle. lia. Qed.

Lemma inject_Z_le_B (n : Z) : (n <= B)%Z -> inject_Z n <= 2147483648 # 1.
Proof.
  intro Hn. change (2147483648 # 1) with (inject_Z B).
  rewrite <- Zle_Qle. exact Hn.
Qed.

Lemma truediv_rel (a b : Z) :
  (0 < a <= B)%Z -> (0 < b <= B)%Z ->
  exists r,
    PyNum.truediv a b = Ok (Num r)
    /\ inject_Z a * (1 - u) <= r * inject_Z b
    /\ r * inject_Z b <= inject_Z a * (1 + u)
    /\ (1 # 4294967296) <= r /\ r <= 4294967296 # 1.
Proof.
  intros [Ha1 Ha2] [Hb1 Hb2].
  pose proof (inject_Z_pos Ha1) as Ha. pose proof (inject_Z_pos Hb1) as Hb.
  pose proof (inject_Z_le_B Ha2) as Ha'.
  pose proof (inject_Z_le_B Hb2) as Hb'.
  set (qa := inject_Z a) in *. set (qb := inject_Z b) in *.
  assert (Hb0 : 0 < qb) by lra.
  assert (Hlo : (1 # 2147483648) <= qa / qb).
  { apply Qle_shift_div_l; [exact Hb0 | lra]. }
  assert (Hhi : qa / qb <= 2147483648 # 1).
  { apply Qle_shift_div_r; [exact Hb0 | lra]. }
  destruct (@binary64_rel (qa / qb)) as [r [Er [H1 H2]]]; try lra.
  exists r. unfold PyNum.truediv.
  replace (b =? 0)%Z with false by (symmetry; apply Z.eqb_neq; lia).
  fold qa qb. rewrite Er.
  assert (E : qa / qb * qb == qa).
  { field. intro E. rewrite E in Hb0. discriminate. }
  fold u in H1, H2.
  split; [reflexivity|]. repeat split.
  - rewrite <- E at 1.
    setoid_replace (qa / qb * qb * (1 - u)) with (qa / qb * (1 - u) * qb)
      by ring.
    apply Qmult_le_compat_r; [exact H1 | lra].
  - rewrite <- E at 1.
    setoid_replace (qa / qb * qb * (1 + u)) with (qa / qb * (1 + u) * qb)
      by ring.
    apply Qmult_le_compat_r; [exact H2 | lra].
  - assert (qa / qb * (1 # 2) <= qa / qb * (1 - u)).
    { apply Qmult_le_l; [lra | unfold u; lra]. }
    lra.
  - assert (qa / qb * (1 + u) <= qa / qb * 2).
    { apply Qmult_le_l; [lra | unfold u; lra]. }
    lra.
Qed.



End ScaleSize.

Section ScaleSizeFits.

Local Open Scope Q_scope.

Let B : Z := 2147483648.





End ScaleSizeFits.

(** *** Resampling *)

Lemma _rescale_ok (t : tensor3) (oh ow : Z) :
  (0 < oh)%Z -> (0 < ow)%Z ->
  (0 < chans t)%nat -> (0 < rows t)%nat -> (0 < cols t)%nat ->
  exists r,
    _rescale t (oh, ow) = Ok r
    /\ dtype3 r = dtype3 t /\ chans r = chans t
    /\ Z.of_nat (rows r) = oh /\ Z.of_nat (cols r) = ow.
Proof.
  intros Hoh How Hc Hr Hcl. unfold _rescale, F_interpolate.
  cbn [to3 rows cols chans dtype3 at3].
  apply Z.ltb_lt in Hoh, How. apply Nat.ltb_lt in Hc, Hr, Hcl.
  rewrite Hoh, How, Hc, Hr, Hcl. cbn [andb Py.bind].
  eexists. split; [reflexivity|].
  cbn [to3 rows cols chans dtype3 at3].
  apply Z.ltb_lt in Hoh, How.
  repeat split; apply Z2Nat.id; lia.
Qed.

Lemma _rescale_empty (t : tensor3) (oh ow : Z) :
  (oh <= 0)%Z \/ (ow <= 0)%Z ->
  _rescale t (oh, ow) = Raise RuntimeError.
Proof.
  intros Hz. unfold _rescale, F_interpolate.
  replace ((0 <? oh) && (0 <? ow))%Z with false; [reflexivity|].
  symmetry. apply andb_false_iff.
  destruct Hz; [left | right]; apply Z.ltb_ge; assumption.
Qed.

Lemma scale_inv (v v' : Image.t) (size : Z * Z) :
  Image.scale v size = Ok v' ->
  exists f new_size b d m,
    Image.scale_size (Image.shape v) size = Ok (f, new_size)
    /\ _rescale (Image.bitmap v) new_size = Ok b
    /\ _rescale (Image.depth v) new_size = Ok d
    /\ _rescale (unsqueeze0 (Image.mask v)) new_size = Ok m
    /\ v' = Image.Build
              (Matrix (mdtype (Image.K v))
                 (mm (Image.K_scaler (mdtype (Image.K v)) f)
                    (mval (Image.K v))))
              (Image.R v) (Image.T v) d b
              (to2 torch_bool
                 (Tensor2 (dtype3 m) (rows m) (cols m)
                    (fun i j => at3 m 0 i j))).
Proof.
  unfold Image.scale. intro E.
  destruct (Image.scale_size (Image.shape v) size) as [[f ns] | e] eqn:Es;
    [|discriminate].
  cbn [Py.bind] in E.
  destruct (_rescale (Image.bitmap v) ns) as [b | e] eqn:Eb; [|discriminate].
  cbn [Py.bind] in E.
  destruct (_rescale (Image.depth v) ns) as [d | e] eqn:Ed; [|discriminate].
  cbn [Py.bind] in E.
  destruct (_rescale (unsqueeze0 (Image.mask v)) ns) as [m | e] eqn:Em;
    [|discriminate].
  cbn [Py.bind] in E. unfold select0 in E.
  destruct (0 <? chans m)%nat; [|discriminate].
  cbn [Py.bind] in E. unfold Image.__init__ in E.
  injection E as E. subst v'.
  exists f, ns, b, d, m. repeat split; assumption.
Qed.

Lemma scale_returns (v : Image.t) (size : Z * Z) (f : fval) (nh nw : Z) :
  Spec.valid_view v -> (0 < chans (Image.bitmap v))%nat ->
  (0 < rows (Image.bitmap v))%nat -> (0 < cols (Image.bitmap v))%nat ->
  Image.scale_size (Image.shape v) size = Ok (f, (nh, nw)) ->
  (0 < nh)%Z -> (0 < nw)%Z ->
  exists v',
    Image.scale v size = Ok v'
    /\ (Z.of_nat (rows (Image.bitmap v')),
        Z.of_nat (cols (Image.bitmap v'))) = (nh, nw)
    /\ (Z.of_nat (rows (Image.depth v')),
        Z.of_nat (cols (Image.depth v'))) = (nh, nw)
    /\ (Z.of_nat (rows2 (Image.mask v')),
        Z.of_nat (cols2 (Image.mask v'))) = (nh, nw).
Proof.
  intros Hv Hc Hr Hcl Es Hn1 Hn2.
  destruct (@_rescale_ok (Image.bitmap v) nh nw)
    as [b [Eb [_ [_ [Hbr Hbc]]]]]; try assumption.
  destruct (@_rescale_ok (Image.depth v) nh nw)
    as [d [Ed [_ [_ [Hdr Hdc]]]]]; try assumption.
  { rewrite (Spec.depth_chans Hv). lia. }
  { rewrite (Spec.depth_rows Hv). exact Hr. }
  { rewrite (Spec.depth_cols Hv). exact Hcl. }
  destruct (@_rescale_ok (unsqueeze0 (Image.mask v)) nh nw)
    as [m [Em [_ [Hmc [Hmr Hmcl]]]]]; try assumption.
  { cbn [unsqueeze0 chans]. lia. }
  { cbn [unsqueeze0 rows]. rewrite (Spec.mask_rows Hv). exact Hr. }
  { cbn [unsqueeze0 cols]. rewrite (Spec.mask_cols Hv). exact Hcl. }
  unfold Image.scale. rewrite Es.
  cbn [Py.bind]. rewrite Eb, Ed, Em. cbn [Py.bind].
  unfold select0. rewrite Hmc. cbn [unsqueeze0 chans Nat.ltb Nat.leb].
  cbn [Py.bind]. unfold Image.__init__.
  eexists. split; [reflexivity|].
  cbn [Image.bitmap Image.depth Image.mask to2 rows2 cols2].
  rewrite Hbr, Hbc, Hdr, Hdc, Hmr, Hmcl. repeat split; reflexivity.
Qed.




(** The float64 rounding is visible in the size: for a 49 x 49 view and the
    target (1, 1), [f = 1 / 49.0] and [f * 49 = 0.9999999999999999], which is
    truncated to 0. *)
Example scale_size_49_to_1 :
  exists f, Image.scale_size (49, 49)%nat (1, 1)%Z = Ok (f, (0, 1)%Z).
Proof. eexists. vm_compute. reflexivity. Qed.

(** *** Lookup of a single coordinate *)

Lemma fetch_depth_single (v : Image.t) (p : fval * fval) (d : fval) :
  Spec.floating (dtype3 (Image.depth v)) ->
  Spec.valid v p = true ->
  index3 (Image.depth v) 0 [(to_int64 (snd p), to_int64 (fst p))] = Ok [d] ->
  Image.fetch_depth v [p] = Ok [d].
Proof.
  intros Hfl Hv Hi. unfold Image.fetch_depth. rewrite valid_depth_map.
  rewrite (@full_NaN_floating _ _ Hfl). cbn [Py.bind].
  simpl map. rewrite Hv. simpl select_cols. destruct p as [x y].
  simpl map. simpl fst in Hi. simpl snd in Hi. rewrite Hi. reflexivity.
Qed.

Lemma same_Num_inv (a : fval) (x : Q) :
  Float.same a (Num x) -> exists x', a = Num x' /\ (x' == x)%Q.
Proof.
  destruct a as [q| | |]; simpl; try contradiction.
  intro E. exists q. split; [reflexivity | exact E].
Qed.

(** ** Further properties of the operations *)

Unset Implicit Arguments.

(** *** Outcome of the depth lookup *)

Lemma norm_index_ok_nonneg (dim : nat) (i : Z) (n : nat) :
  (0 <= i)%Z -> norm_index dim i = Ok n -> (i < Z.of_nat dim)%Z.
Proof.
  intros Hi. unfold norm_index.
  destruct (Z.leb_spec 0 i); [|lia].
  destruct (Z.ltb_spec i (Z.of_nat dim)); [intros _; assumption|].
  cbn [andb].
  destruct (Z.ltb_spec i 0); [lia|].
  rewrite andb_false_r. discriminate.
Qed.

Lemma gather_raises_IndexError (t : tensor3) (c : nat) (yx : list (Z * Z))
  (e : exn) :
  gather t c yx = Raise e -> e = IndexError.
Proof.
  induction yx as [|[y x] yx IH]; [discriminate|].
  cbn [gather].
  destruct (norm_index_cases (rows t) y) as [[i Ei] | Ei]; rewrite Ei;
    cbn [Py.bind]; [|intro E; injection E as <-; reflexivity].
  destruct (norm_index_cases (cols t) x) as [[j Ej] | Ej]; rewrite Ej;
    cbn [Py.bind]; [|intro E; injection E as <-; reflexivity].
  destruct (gather t c yx) as [vs | e'];
    cbn [Py.bind]; [discriminate|].
  intro E. injection E as <-. apply IH. reflexivity.
Qed.

Lemma gather_ok_inside (t : tensor3) (c : nat) (yx : list (Z * Z))
  (vals : list fval) :
  gather t c yx = Ok vals ->
  forall y x, In (y, x) yx -> (0 <= y)%Z -> (0 <= x)%Z ->
    (y < Z.of_nat (rows t))%Z /\ (x < Z.of_nat (cols t))%Z.
Proof.
  revert vals. induction yx as [|[y0 x0] yx IH]; intros vals E y x Hin.
  { destruct Hin. }
  cbn [gather] in E.
  destruct (norm_index (rows t) y0) as [i | e] eqn:Ei; [|discriminate].
  cbn [Py.bind] in E.
  destruct (norm_index (cols t) x0) as [j | e] eqn:Ej; [|discriminate].
  cbn [Py.bind] in E.
  destruct (gather t c yx) as [vs | e] eqn:Eg; [|discriminate].
  destruct Hin as [Hin | Hin].
  - injection Hin as -> ->. intros Hy Hx. split.
    + exact (norm_index_ok_nonneg _ _ _ Hy Ei).
    + exact (norm_index_ok_nonneg _ _ _ Hx Ej).
  - exact (IH vs eq_refl y x Hin).
Qed.

Lemma in_select_cols (A : Type) (f : A -> bool) (xs : list A) (a : A) :
  In a xs -> f a = true -> In a (select_cols xs (map f xs)).
Proof.
  induction xs as [|x xs IH]; intros Hin Hf; [destruct Hin|].
  cbn [map select_cols]. destruct Hin as [-> | Hin].
  - rewrite Hf. left. reflexivity.
  - destruct (f x); [right|]; apply IH; assumption.
Qed.

Lemma valid_indices_nonneg (v : Image.t) (p : fval * fval) :
  Spec.valid v p = true ->
  (0 <= to_int64 (snd p))%Z /\ (0 <= to_int64 (fst p))%Z.
Proof.
  intro Hp. destruct p as [x y]. cbn [fst snd].
  rewrite valid_unfold, in_range_mask_cons, in_range_mask_nil in Hp.
  cbn [fst snd hd] in Hp.
  apply andb_true_iff in Hp. destruct Hp as [Hr _].
  apply in_range_within in Hr. destruct Hr as [Hwx Hwy].
  destruct x as [qx| | |]; try contradiction.
  destruct y as [qy| | |]; try contradiction.
  simpl in Hwx, Hwy. unfold to_int64.
  rewrite (Qtrunc_floor (proj1 Hwx)), (Qtrunc_floor (proj1 Hwy)).
  split; change 0%Z with (Qfloor 0); apply Qfloor_resp_le;
    [apply Hwy | apply Hwx].
Qed.

Lemma fetch_depth_ok_inside (v : Image.t) (xy : list (fval * fval))
  (out : list fval) :
  Image.fetch_depth v xy = Ok out ->
  Spec.floating (dtype3 (Image.depth v))
  /\ (0 < chans (Image.depth v))%nat
  /\ forall p, In p xy -> Spec.valid v p = true -> Spec.index_inside v p.
Proof.
  intros E. unfold Image.fetch_depth in E.
  rewrite valid_depth_map in E. unfold full_NaN in E.
  destruct (is_floating (dtype3 (Image.depth v))) eqn:Efl; [|discriminate].
  cbn [Py.bind] in E. unfold index3 in E.
  destruct (norm_index (chans (Image.depth v)) 0) as [c | e] eqn:Ec;
    [|discriminate].
  cbn [Py.bind] in E.
  destruct (gather (Image.depth v) c _) as [vals | e] eqn:Eg;
    [|discriminate].
  split; [apply floating_is_floating; exact Efl|]. split.
  - pose proof (norm_index_ok_nonneg _ 0 c ltac:(lia) Ec). lia.
  - intros p Hin Hp.
    destruct (valid_indices_nonneg v p Hp) as [Hy Hx].
    assert (Hsel : In (to_int64 (snd p), to_int64 (fst p))
                     (map (fun '(x, y) => (to_int64 y, to_int64 x))
                        (select_cols xy (map (Spec.valid v) xy)))).
    { apply in_map_iff. exists p. split; [destruct p; reflexivity|].
      apply in_select_cols; assumption. }
    destruct (gather_ok_inside _ _ _ _ Eg _ _ Hsel Hy Hx).
    unfold Spec.index_inside. lia.
Qed.

Lemma fetch_depth_inside_ok (v : Image.t) (xy : list (fval * fval)) :
  Spec.floating (dtype3 (Image.depth v)) ->
  (0 < chans (Image.depth v))%nat ->
  (forall p, In p xy -> Spec.valid v p = true -> Spec.index_inside v p) ->
  exists out,
    Image.fetch_depth v xy = Ok out
    /\ Forall2
         (fun p d =>
            d = if Spec.valid v p
                then at3 (Image.depth v) 0 (Z.to_nat (to_int64 (snd p)))
                       (Z.to_nat (to_int64 (fst p)))
                else NaN)
         xy out.
Proof.
  intros Hfl Hc Hin.
  destruct (gather_masked v 0 NaN xy Hin) as [vals [Hg Hf]].
  unfold Image.fetch_depth. rewrite valid_depth_map.
  rewrite (@full_NaN_floating _ _ Hfl). cbn [Py.bind]. unfold index3.
  rewrite (norm_index_inside (chans (Image.depth v)) (i := 0)) by lia.
  cbn [Py.bind]. change (Z.to_nat 0) with 0%nat. rewrite Hg.
  eexists. split; [reflexivity | exact Hf].
Qed.

Lemma fetch_depth_raises_IndexError (v : Image.t) (xy : list (fval * fval))
  (e : exn) :
  Spec.floating (dtype3 (Image.depth v)) ->
  Image.fetch_depth v xy = Raise e -> e = IndexError.
Proof.
  intros Hfl E. unfold Image.fetch_depth in E.
  rewrite valid_depth_map in E.
  rewrite (@full_NaN_floating _ _ Hfl) in E. cbn [Py.bind] in E.
  unfold index3 in E.
  destruct (norm_index_cases (chans (Image.depth v)) 0) as [[c Ec] | Ec];
    rewrite Ec in E; cbn [Py.bind] in E;
    [|injection E as <-; reflexivity].
  destruct (gather (Image.depth v) c _) as [vals | e'] eqn:Eg;
    cbn [Py.bind] in E; [discriminate|].
  injection E as <-. exact (gather_raises_IndexError _ _ _ _ Eg).
Qed.

Lemma fetch_depth_not_floating (v : Image.t) (xy : list (fval * fval)) :
  ~ Spec.floating (dtype3 (Image.depth v)) ->
  Image.fetch_depth v xy = Raise RuntimeError.
Proof.
  intro Hnf. unfold Image.fetch_depth.
  rewrite (@full_NaN_not_floating _ _ Hnf). reflexivity.
Qed.

(** Validity and the computed indices, on the numbers. *)
Lemma valid_iff (v : Image.t) (p : fval * fval) :
  Spec.valid v p = true <-> Spec.coord_valid v p.
Proof.
  destruct p as [x y]. unfold Spec.coord_valid. cbn [fst snd].
  rewrite valid_unfold, in_range_mask_cons, in_range_mask_nil.
  cbn [fst snd hd]. rewrite andb_true_iff, in_range_within. split.
  - intros [Hw _]. exact Hw.
  - intros Hw. split; [exact Hw|].
    destruct Hw as [Hx Hy].
    destruct x; try contradiction; destruct y; try contradiction.
    reflexivity.
Qed.

Lemma Qtrunc_pixel (q : Q) :
  (0 <= q)%Q -> Spec.pixel (Num q) (Z.to_nat (Qtrunc q)).
Proof.
  intro Hq. rewrite (Qtrunc_floor Hq). cbn [Spec.pixel].
  assert (H0 : (0 <= Qfloor q)%Z).
  { change 0%Z with (Qfloor 0). apply Qfloor_resp_le. exact Hq. }
  rewrite Z2Nat.id by exact H0. split; [apply Qfloor_le|].
  pose proof (Qlt_floor q) as H. rewrite inject_Z_plus in H. exact H.
Qed.

Lemma Qtrunc_below (q : Q) (n : nat) :
  (0 <= q)%Q ->
  ((0 <= Qtrunc q < Z.of_nat n)%Z <-> (q < inject_Z (Z.of_nat n))%Q).
Proof.
  intro Hq. rewrite (Qtrunc_floor Hq).
  assert (H0 : (0 <= Qfloor q)%Z).
  { change 0%Z with (Qfloor 0). apply Qfloor_resp_le. exact Hq. }
  split.
  - intros [_ Hlt].
    apply Qlt_le_trans with (inject_Z (Qfloor q + 1)); [apply Qlt_floor|].
    rewrite <- Zle_Qle. lia.
  - intro Hlt. split; [exact H0|].
    rewrite Zlt_Qlt. eapply Qle_lt_trans; [apply Qfloor_le | exact Hlt].
Qed.

Lemma inside_iff (v : Image.t) (p : fval * fval) :
  Spec.coord_valid v p ->
  (Spec.index_inside v p <-> Spec.strictly_inside v p).
Proof.
  destruct p as [x y]. unfold Spec.coord_valid, Spec.index_inside,
    Spec.strictly_inside. cbn [fst snd].
  intros [Hx Hy].
  destruct x as [qx | | |]; try contradiction.
  destruct y as [qy | | |]; try contradiction.
  cbn [Spec.within] in Hx, Hy. cbn [to_int64 Spec.below].
  rewrite (Qtrunc_below qy (rows (Image.depth v)) (proj1 Hy)).
  rewrite (Qtrunc_below qx (cols (Image.depth v)) (proj1 Hx)).
  tauto.
Qed.

(** C2, as the code has it.  On a view whose rasters share their extent
    (H, W), with a floating one-channel depth raster: for a batch of N
    coordinates whose valid members (0 <= x <= W, 0 <= y <= H) all lie
    strictly below the upper bounds, [fetch_depth] returns N depths, NaN for
    each coordinate that is out of range or not finite and, for each valid
    one, the depth stored at row i and column j with i <= y < i + 1 and
    j <= x < j + 1.  A batch with a valid coordinate on the inclusive upper
    boundary, x = W or y = H, returns nothing: [fetch_depth] raises
    [IndexError]. *)
Theorem fetch_depth_values (v : Image.t) (xy : list (fval * fval)) :
  Spec.valid_view v ->
  ((forall p, In p xy -> Spec.coord_valid v p -> Spec.strictly_inside v p) ->
   exists out,
     Image.fetch_depth v xy = Ok out
     /\ List.length out = List.length xy
     /\ Forall2
          (fun p d =>
             (~ Spec.coord_valid v p -> d = NaN)
             /\ (Spec.coord_valid v p ->
                 exists i j,
                   Spec.pixel (snd p) i /\ Spec.pixel (fst p) j
                   /\ d = at3 (Image.depth v) 0 i j))
          xy out)
  /\ ((exists p,
         In p xy /\ Spec.coord_valid v p /\ ~ Spec.strictly_inside v p) ->
      Image.fetch_depth v xy = Raise IndexError).
Proof.
  intro Hv.
  pose proof (Spec.depth_floating Hv) as Hfl.
  assert (Hc : (0 < chans (Image.depth v))%nat)
    by (rewrite (Spec.depth_chans Hv); lia).
  split.
  - intro Hin.
    destruct (fetch_depth_inside_ok v xy Hfl Hc) as [out [E Hf]].
    { intros p Hp Hvp. apply valid_iff in Hvp.
      apply inside_iff; [exact Hvp | exact (Hin p Hp Hvp)]. }
    exists out. split; [exact E|].
    split; [symmetry; exact (Forall2_length Hf)|].
    eapply Forall2_impl; [|exact Hf].
    intros p d Hd. cbn beta in Hd. split.
    + intro Hnv. destruct (Spec.valid v p) eqn:Hvp; [|exact Hd].
      exfalso. apply Hnv. apply valid_iff. exact Hvp.
    + intro Hvp. pose proof Hvp as Hvp'. apply valid_iff in Hvp'.
      rewrite Hvp' in Hd.
      destruct p as [x y]. destruct Hvp as [Hx Hy]. cbn [fst snd] in *.
      destruct x as [qx | | |]; try contradiction.
      destruct y as [qy | | |]; try contradiction.
      cbn [Spec.within] in Hx, Hy. cbn [to_int64] in Hd.
      exists (Z.to_nat (Qtrunc qy)), (Z.to_nat (Qtrunc qx)).
      split; [apply Qtrunc_pixel; apply Hy|].
      split; [apply Qtrunc_pixel; apply Hx | exact Hd].
  - intros [p [Hp [Hvp Hout]]].
    destruct (Image.fetch_depth v xy) as [out | e] eqn:E.
    + exfalso. apply Hout.
      destruct (fetch_depth_ok_inside v xy out E) as [_ [_ Hin]].
      apply inside_iff; [exact Hvp|].
      apply Hin; [exact Hp | apply valid_iff; exact Hvp].
    + f_equal. exact (fetch_depth_raises_IndexError v xy e Hfl E).
Qed.

Lemma fetch_depth_values_witness :
  (exists out,
     Image.fetch_depth Examples.view22
       [(Num (1 # 2), Num (3 # 2)); (PosInf, zero); (Num (-1), zero)]
     = Ok out
     /\ List.length out = 3%nat
     /\ Forall2
          (fun p d =>
             (~ Spec.coord_valid Examples.view22 p -> d = NaN)
             /\ (Spec.coord_valid Examples.view22 p ->
                 exists i j,
                   Spec.pixel (snd p) i /\ Spec.pixel (fst p) j
                   /\ d = at3 (Image.depth Examples.view22) 0 i j))
          [(Num (1 # 2), Num (3 # 2)); (PosInf, zero); (Num (-1), zero)]
          out)
  /\ Image.fetch_depth Examples.view22
       [(Num (1 # 2), Num (3 # 2)); (Num 2, zero)]
     = Raise IndexError.
Proof.
  split.
  - apply (proj1 (fetch_depth_values Examples.view22
                    [(Num (1 # 2), Num (3 # 2)); (PosInf, zero);
                     (Num (-1), zero)] view22_valid)).
    intros p Hp Hv. cbn [In] in Hp.
    destruct Hp as [<- | [<- | [<- | []]]].
    + split; vm_compute; reflexivity.
    + destruct Hv as [[] _].
    + destruct Hv as [[Hneg _] _]. exfalso. vm_compute in Hneg.
      apply Hneg. reflexivity.
  - apply (proj2 (fetch_depth_values Examples.view22
                    [(Num (1 # 2), Num (3 # 2)); (Num 2, zero)]
                    view22_valid)).
    exists (Num 2, zero). split; [right; left; reflexivity|]. split.
    + split; split; vm_compute; discriminate.
    + intros [Hx _]. vm_compute in Hx. discriminate.
Defined.


(** *** Outcome of unprojection and projection *)

Lemma combine_map_l (A B C : Type) (f : A -> B) (xs : list A) (ys : list C) :
  combine (map f xs) ys = map (fun '(a, c) => (f a, c)) (combine xs ys).
Proof.
  revert ys. induction xs as [|x xs IH]; intros [|y ys]; try reflexivity.
  cbn [map combine]. rewrite IH. reflexivity.
Qed.

Lemma Forall2_map_combine (A B C : Type) (P : A -> B -> Prop)
  (Q : A -> C -> Prop) (f : A * B -> C) (xs : list A) (ys : list B) :
  (forall a b, P a b -> Q a (f (a, b))) ->
  Forall2 P xs ys -> Forall2 Q xs (map f (combine xs ys)).
Proof.
  intros Hf H. induction H as [|a b xs ys Hab _ IH]; [constructor|].
  cbn [combine map]. constructor; [apply Hf; exact Hab | exact IH].
Qed.

Lemma unproject_unfold (v : Image.t) (xy : list (fval * fval)) :
  Image.unproject v xy
  = (depth <- Image.fetch_depth v xy ;;
     Kinv <- Image.K_inv v ;;
     matmul_dtypes (mdtype (Image.K v)) (dtype3 (Image.depth v)) ;;;
     Ok (map (fun '(p, z) => Spec.unproject_column v Kinv p z)
           (combine xy depth))).
Proof.
  unfold Image.unproject.
  destruct (Image.fetch_depth v xy) as [ds | e]; [|reflexivity].
  cbn [Py.bind].
  destruct (Image.K_inv v) as [Kinv | e]; [|reflexivity].
  cbn [Py.bind].
  destruct (matmul_dtypes _ _) as [[] | e]; [|reflexivity].
  cbn [Py.bind]. f_equal.
  rewrite combine_map_l, !map_map.
  apply map_ext. intros [[x y] z]. reflexivity.
Qed.

Lemma project_unfold (v : Image.t) (xyw : list vec3) :
  Image.project v xyw = map (Spec.project_column v) xyw.
Proof. reflexivity. Qed.

Lemma mul_NaN_r (a : fval) : Float.mul a NaN = NaN.
Proof. destruct a; reflexivity. Qed.

Lemma mv_nan3 (M : mat3) : mv M Spec.nan3 = Spec.nan3.
Proof.
  destruct M as [[[[a b] c] [[d e] f]] [[g h] i]].
  unfold mv, dot, Spec.nan3. rewrite !mul_NaN_r. reflexivity.
Qed.

Lemma unproject_column_NaN (v : Image.t) (Kinv : mat3) (p : fval * fval) :
  Spec.unproject_column v Kinv p NaN = Spec.nan3.
Proof.
  unfold Spec.unproject_column.
  destruct (mv Kinv _) as [[a b] c].
  destruct (Image.T v) as [[t0 t1] t2].
  unfold vscale, vsub. rewrite !mul_NaN_r.
  change (Float.sub NaN t0, Float.sub NaN t1, Float.sub NaN t2)
    with Spec.nan3.
  apply mv_nan3.
Qed.

Lemma project_column_NaN (v : Image.t) :
  Spec.project_column v Spec.nan3 = (NaN, NaN).
Proof.
  unfold Spec.project_column. rewrite mv_nan3.
  destruct (Image.T v) as [[t0 t1] t2].
  change (vadd Spec.nan3 (t0, t1, t2)) with Spec.nan3.
  rewrite mv_nan3. reflexivity.
Qed.

(** X2.  Invalidity is propagated as data: in every batch that [unproject]
    accepts, each coordinate that is out of range or non-finite comes back as
    the point (NaN, NaN, NaN), whatever K, R and T are, and [project] maps
    that point to (NaN, NaN). *)
Theorem unproject_invalid_is_NaN
  (v : Image.t) (xy : list (fval * fval)) (out : list vec3) :
  Spec.floating (dtype3 (Image.depth v)) ->
  Image.unproject v xy = Ok out ->
  Forall2
    (fun p w =>
       Spec.valid v p = false ->
       w = Spec.nan3 /\ Image.project v [w] = [(NaN, NaN)])
    xy out.
Proof.
  intros Hfl E. rewrite unproject_unfold in E.
  destruct (Image.fetch_depth v xy) as [ds | e] eqn:Ef; [|discriminate].
  cbn [Py.bind] in E.
  destruct (Image.K_inv v) as [Kinv | e]; [|discriminate].
  cbn [Py.bind] in E.
  destruct (matmul_dtypes _ _) as [[] | e]; [|discriminate].
  cbn [Py.bind] in E. injection E as <-.
  destruct (fetch_depth_ok_inside _ _ _ Ef) as [_ [Hc Hin]].
  destruct (fetch_depth_inside_ok v xy Hfl Hc Hin) as [ds' [Ef' Hds]].
  rewrite Ef in Ef'. injection Ef' as <-.
  eapply Forall2_map_combine; [|exact Hds].
  intros p d Hd Hp. cbn beta in Hd. rewrite Hp in Hd. subst d.
  rewrite unproject_column_NaN. split; [reflexivity|].
  rewrite project_unfold. cbn [map]. rewrite project_column_NaN.
  reflexivity.
Qed.

Lemma unproject_invalid_is_NaN_witness :
  Forall2
    (fun p w =>
       Spec.valid Examples.view22 p = false ->
       w = Spec.nan3 /\ Image.project Examples.view22 [w] = [(NaN, NaN)])
    [(Num (1 # 2), Num (3 # 2)); (PosInf, zero); (Num (-1), zero)]
    (match Image.unproject Examples.view22
             [(Num (1 # 2), Num (3 # 2)); (PosInf, zero); (Num (-1), zero)]
     with Ok out => out | Raise _ => [] end).
Proof.
  apply (unproject_invalid_is_NaN Examples.view22).
  - left. reflexivity.
  - reflexivity.
Defined.

Lemma fetch_depth_length (v : Image.t) (xy : list (fval * fval))
  (ds : list fval) :
  Image.fetch_depth v xy = Ok ds -> List.length ds = List.length xy.
Proof.
  intro Ef.
  destruct (fetch_depth_ok_inside _ _ _ Ef) as [Hfl [Hc Hin]].
  destruct (fetch_depth_inside_ok v xy Hfl Hc Hin) as [ds' [Ef' Hds]].
  rewrite Ef in Ef'. injection Ef' as <-.
  symmetry. exact (Forall2_length Hds).
Qed.

Lemma dtype_eqb_eq (a b : dtype) : dtype_eqb a b = true <-> a = b.
Proof. destruct a, b; cbn [dtype_eqb]; split; congruence. Qed.

Lemma inverse_raises (M : mat3) (e : exn) :
  inverse M = Raise e -> e = RuntimeError.
Proof.
  destruct M as [[[[a b] c] [[d e0] f]] [[g h] i]].
  unfold inverse. cbv beta iota zeta.
  match goal with
  | |- context [is_zero ?t] => destruct (is_zero t)
  end; [|discriminate].
  intro E. injection E as <-. reflexivity.
Qed.

Lemma K_inv_raises (v : Image.t) (e : exn) :
  Image.K_inv v = Raise e -> e = RuntimeError.
Proof.
  unfold Image.K_inv. destruct (is_floating (mdtype (Image.K v))).
  - apply inverse_raises.
  - intro E. injection E as <-. reflexivity.
Qed.

(** X3.  The errors of [unproject].  The depth lookup comes first: when
    [fetch_depth] raises, [unproject] raises the same exception, whatever K,
    R and T are.  When the lookup succeeds and K is not a floating tensor of
    the depth raster's dtype, [unproject] raises [RuntimeError].  It raises
    nothing but [IndexError] and [RuntimeError], and a batch it returns has
    one point per coordinate. *)
Theorem unproject_outcome (v : Image.t) (xy : list (fval * fval)) :
  (forall e, Image.fetch_depth v xy = Raise e ->
             Image.unproject v xy = Raise e)
  /\ (forall ds, Image.fetch_depth v xy = Ok ds ->
      ~ Spec.floating (mdtype (Image.K v))
      \/ mdtype (Image.K v) <> dtype3 (Image.depth v) ->
      Image.unproject v xy = Raise RuntimeError)
  /\ (forall e, Image.unproject v xy = Raise e ->
                e = IndexError \/ e = RuntimeError)
  /\ (forall out, Image.unproject v xy = Ok out ->
      List.length out = List.length xy
      /\ Spec.floating (dtype3 (Image.depth v))
      /\ mdtype (Image.K v) = dtype3 (Image.depth v)).
Proof.
  rewrite unproject_unfold. split; [|split; [|split]].
  - intros e ->. reflexivity.
  - intros ds -> Hbad. cbn [Py.bind].
    destruct (Image.K_inv v) as [Kinv | e] eqn:EK.
    + cbn [Py.bind]. unfold matmul_dtypes.
      destruct (dtype_eqb (mdtype (Image.K v)) (dtype3 (Image.depth v)))
        eqn:Ed; [|reflexivity].
      exfalso. apply dtype_eqb_eq in Ed. destruct Hbad as [Hnf | Hne];
        [|exact (Hne Ed)].
      apply Hnf. apply floating_is_floating.
      unfold Image.K_inv in EK.
      destruct (is_floating (mdtype (Image.K v))); [reflexivity|].
      discriminate.
    + cbn [Py.bind]. f_equal. exact (K_inv_raises v e EK).
  - intros e E.
    destruct (Image.fetch_depth v xy) as [ds | e'] eqn:Ef.
    + cbn [Py.bind] in E. right.
      destruct (Image.K_inv v) as [Kinv | e'] eqn:EK.
      * cbn [Py.bind] in E. unfold matmul_dtypes in E.
        destruct (dtype_eqb _ _); cbn [Py.bind] in E; [discriminate|].
        injection E as <-. reflexivity.
      * cbn [Py.bind] in E. injection E as <-.
        exact (K_inv_raises v e' EK).
    + cbn [Py.bind] in E. injection E as <-.
      destruct (is_floating (dtype3 (Image.depth v))) eqn:Efl.
      * left. apply (fetch_depth_raises_IndexError v xy e').
        -- apply floating_is_floating. exact Efl.
        -- exact Ef.
      * right.
        rewrite fetch_depth_not_floating in Ef.
        -- injection Ef as <-. reflexivity.
        -- intro Hfl. apply floating_is_floating in Hfl. congruence.
  - intros out E.
    destruct (Image.fetch_depth v xy) as [ds | e] eqn:Ef; [|discriminate].
    cbn [Py.bind] in E.
    destruct (Image.K_inv v) as [Kinv | e]; [|discriminate].
    cbn [Py.bind] in E. unfold matmul_dtypes in E.
    destruct (dtype_eqb (mdtype (Image.K v)) (dtype3 (Image.depth v)))
      eqn:Ed; [|discriminate].
    cbn [Py.bind] in E. injection E as <-.
    split; [|split].
    + rewrite length_map, length_combine, (fetch_depth_length _ _ _ Ef).
      apply Nat.min_id.
    + exact (proj1 (fetch_depth_ok_inside _ _ _ Ef)).
    + apply dtype_eqb_eq. exact Ed.
Qed.

(** *** What padding keeps and establishes *)

Lemma cast_zero_fill (d : dtype) : cast d (cast float32 zero) = zero.
Proof. destruct d; reflexivity. Qed.

Lemma cast_bool_values (x : fval) :
  cast torch_bool x = zero \/ cast torch_bool x = one.
Proof. unfold cast. destruct (is_zero x); [left | right]; reflexivity. Qed.

Lemma pad_result (v : Image.t) (Ht Wt : Z) :
  (0 < Ht)%Z -> (0 < Wt)%Z ->
  exists b d m,
    Image.pad v (Ht, Wt)
    = Ok (Image.Build (Image.K v) (Image.R v) (Image.T v) d b
            (to2 torch_bool
               (Tensor2 (dtype3 m) (rows m) (cols m)
                  (fun i j => at3 m 0 i j))))
    /\ (dtype3 b = dtype3 (Image.bitmap v)
        /\ chans b = chans (Image.bitmap v)
        /\ Z.of_nat (rows b) = Ht /\ Z.of_nat (cols b) = Wt
        /\ forall c i j,
             at3 b c i j
             = cast (dtype3 (Image.bitmap v))
                 (if ((i <? rows (Image.bitmap v))
                      && (j <? cols (Image.bitmap v)))%nat
                  then cast float32 (at3 (Image.bitmap v) c i j)
                  else cast float32 zero))
    /\ (dtype3 d = dtype3 (Image.depth v)
        /\ chans d = chans (Image.depth v)
        /\ Z.of_nat (rows d) = Ht /\ Z.of_nat (cols d) = Wt
        /\ forall c i j,
             at3 d c i j
             = cast (dtype3 (Image.depth v))
                 (if ((i <? rows (Image.depth v))
                      && (j <? cols (Image.depth v)))%nat
                  then cast float32 (at3 (Image.depth v) c i j)
                  else cast float32 NaN))
    /\ (Z.of_nat (rows m) = Ht /\ Z.of_nat (cols m) = Wt
        /\ forall c i j,
             at3 m c i j
             = cast (dtype2 (Image.mask v))
                 (if ((i <? rows2 (Image.mask v))
                      && (j <? cols2 (Image.mask v)))%nat
                  then cast float32 (at2 (Image.mask v) i j)
                  else cast float32 zero)).
Proof.
  intros HH HW.
  destruct (@_pad_spec (Image.bitmap v) Ht Wt zero HH HW)
    as [b [Eb [Hb1 [Hb2 [Hb3 [Hb4 Hb5]]]]]].
  destruct (@_pad_spec (Image.depth v) Ht Wt NaN HH HW)
    as [d [Ed [Hd1 [Hd2 [Hd3 [Hd4 Hd5]]]]]].
  destruct (@_pad_spec (unsqueeze0 (Image.mask v)) Ht Wt zero HH HW)
    as [m [Em [Hm1 [Hm2 [Hm3 [Hm4 Hm5]]]]]].
  exists b, d, m.
  split; [exact (@pad_unfold v (Ht, Wt) b d m Eb Ed Em Hm2)|].
  repeat split; assumption.
Qed.

(** X8.  Whatever the dtype of the bitmap, the region that [pad] appends to
    it is 0; [pad] keeps the dtype and the channel count of the bitmap and of
    the depth raster, and the mask of the result is a bool tensor. *)
Theorem pad_fill_and_dtypes (v : Image.t) (Ht Wt : Z) :
  (0 < Ht)%Z -> (0 < Wt)%Z ->
  exists v',
    Image.pad v (Ht, Wt) = Ok v'
    /\ (forall c i j,
          (rows (Image.bitmap v) <= i)%nat
          \/ (cols (Image.bitmap v) <= j)%nat ->
          at3 (Image.bitmap v') c i j = zero)
    /\ dtype3 (Image.bitmap v') = dtype3 (Image.bitmap v)
    /\ chans (Image.bitmap v') = chans (Image.bitmap v)
    /\ dtype3 (Image.depth v') = dtype3 (Image.depth v)
    /\ chans (Image.depth v') = chans (Image.depth v)
    /\ dtype2 (Image.mask v') = torch_bool.
Proof.
  intros HH HW.
  destruct (pad_result v Ht Wt HH HW)
    as [b [d [m [E [[Hb1 [Hb2 [_ [_ Hb5]]]] [[Hd1 [Hd2 _]] _]]]]]].
  eexists. split; [exact E|].
  cbn [Image.bitmap Image.depth Image.mask to2 dtype2].
  split; [|repeat split; assumption].
  intros c i j Hout. rewrite Hb5.
  replace ((i <? rows (Image.bitmap v)) && (j <? cols (Image.bitmap v)))%nat
    with false.
  - apply cast_zero_fill.
  - symmetry. apply andb_false_iff.
    destruct Hout; [left | right]; apply Nat.ltb_ge; assumption.
Qed.

Lemma pad_fill_and_dtypes_witness :
  exists v',
    Image.pad Examples.view_f64 (3, 4)%Z = Ok v'
    /\ (forall c i j,
          (rows (Image.bitmap Examples.view_f64) <= i)%nat
          \/ (cols (Image.bitmap Examples.view_f64) <= j)%nat ->
          at3 (Image.bitmap v') c i j = zero)
    /\ dtype3 (Image.bitmap v') = dtype3 (Image.bitmap Examples.view_f64)
    /\ chans (Image.bitmap v') = chans (Image.bitmap Examples.view_f64)
    /\ dtype3 (Image.depth v') = dtype3 (Image.depth Examples.view_f64)
    /\ chans (Image.depth v') = chans (Image.depth Examples.view_f64)
    /\ dtype2 (Image.mask v') = torch_bool.
Proof.
  apply (pad_fill_and_dtypes Examples.view_f64 3 4); reflexivity.
Defined.

(** X9.  [pad] establishes the data-model invariant: for a view whose depth
    raster is floating with one channel, whatever the extents of its three
    rasters and the dtype of its mask, the view returned for a target with
    Ht >= 1 and Wt >= 1 has a bitmap, a depth raster and a bool 0/1 mask of
    one common extent. *)
Theorem pad_establishes_invariant (v : Image.t) (Ht Wt : Z) :
  (0 < Ht)%Z -> (0 < Wt)%Z ->
  chans (Image.depth v) = 1%nat ->
  Spec.floating (dtype3 (Image.depth v)) ->
  exists v', Image.pad v (Ht, Wt) = Ok v' /\ Spec.valid_view v'.
Proof.
  intros HH HW Hc Hfl.
  destruct (pad_result v Ht Wt HH HW)
    as [b [d [m [E [[_ [_ [Hb3 [Hb4 _]]]]
                      [[Hd1 [Hd2 [Hd3 [Hd4 _]]]] [Hm3 [Hm4 _]]]]]]]].
  eexists. split; [exact E|].
  constructor;
    cbn [Image.bitmap Image.depth Image.mask to2 dtype2 rows2 cols2 at2].
  - rewrite Hd2. exact Hc.
  - lia.
  - lia.
  - rewrite Hd1. exact Hfl.
  - lia.
  - lia.
  - reflexivity.
  - intros i j. apply cast_bool_values.
Qed.

Lemma pad_establishes_invariant_witness :
  exists v',
    Image.pad Examples.view_f64 (1, 5)%Z = Ok v' /\ Spec.valid_view v'.
Proof.
  apply (pad_establishes_invariant Examples.view_f64 1 5); try reflexivity.
  right. reflexivity.
Defined.

(** *** What scaling keeps and establishes *)

Lemma Ok_inj (A : Type) (a b : A) : Ok a = Ok b -> a = b.
Proof. intro E. congruence. Qed.

Lemma _rescale_inv (t r : tensor3) (size : Z * Z) :
  _rescale t size = Ok r ->
  dtype3 r = dtype3 t /\ chans r = chans t
  /\ rows r = Z.to_nat (fst size) /\ cols r = Z.to_nat (snd size)
  /\ (0 < fst size)%Z /\ (0 < snd size)%Z
  /\ (0 < chans t)%nat /\ (0 < rows t)%nat /\ (0 < cols t)%nat.
Proof.
  destruct size as [oh ow]. unfold _rescale, F_interpolate.
  cbn [to3 rows cols chans dtype3 at3 fst snd].
  destruct (0 <? oh)%Z eqn:E1; [|discriminate].
  destruct (0 <? ow)%Z eqn:E2; [|discriminate].
  destruct (0 <? chans t)%nat eqn:E3; [|discriminate].
  destruct (0 <? rows t)%nat eqn:E4; [|discriminate].
  destruct (0 <? cols t)%nat eqn:E5; [|discriminate].
  cbn [andb Py.bind]. intro E. apply Ok_inj in E. subst r.
  cbn [to3 rows cols chans dtype3 at3].
  apply Z.ltb_lt in E1, E2. apply Nat.ltb_lt in E3, E4, E5.
  repeat split; assumption.
Qed.

(** X10.  Whenever [scale] returns, the view it returns satisfies the
    data-model invariant, provided the depth raster of the original is
    floating with one channel: bitmap, depth and mask have one common extent,
    which is not empty, the depth raster keeps its dtype and the mask is a
    bool 0/1 raster.  The bitmap keeps its dtype and channel count, and none
    of the three rasters of the original was empty. *)
Theorem scale_establishes_invariant (v v' : Image.t) (size : Z * Z) :
  chans (Image.depth v) = 1%nat ->
  Spec.floating (dtype3 (Image.depth v)) ->
  Image.scale v size = Ok v' ->
  Spec.valid_view v'
  /\ (0 < rows (Image.bitmap v'))%nat /\ (0 < cols (Image.bitmap v'))%nat
  /\ dtype3 (Image.bitmap v') = dtype3 (Image.bitmap v)
  /\ chans (Image.bitmap v') = chans (Image.bitmap v)
  /\ (0 < Image.length v)%nat
  /\ (0 < rows (Image.depth v) * cols (Image.depth v))%nat
  /\ (0 < rows2 (Image.mask v) * cols2 (Image.mask v))%nat.
Proof.
  intros Hc Hfl E.
  destruct (scale_inv _ _ E) as [f [ns [b [d [m [_ [Eb [Ed [Em Ev]]]]]]]]].
  destruct (_rescale_inv _ _ _ Eb)
    as [Hb1 [Hb2 [Hb3 [Hb4 [Hn1 [Hn2 [_ [Hb5 Hb6]]]]]]]].
  destruct (_rescale_inv _ _ _ Ed)
    as [Hd1 [Hd2 [Hd3 [Hd4 [_ [_ [_ [Hd5 Hd6]]]]]]]].
  destruct (_rescale_inv _ _ _ Em) as [_ [_ [Hm3 [Hm4 [_ [_ [_ [Hm5 Hm6]]]]]]]].
  cbn [unsqueeze0 rows cols] in Hm5, Hm6.
  subst v'. unfold Image.length.
  cbn [Image.bitmap Image.depth Image.mask].
  split; [|repeat split; try assumption; try lia; try nia].
  constructor;
    cbn [Image.bitmap Image.depth Image.mask to2 dtype2 rows2 cols2 at2];
    try congruence.
  intros i j. apply cast_bool_values.
Qed.

Lemma scale_establishes_invariant_witness :
  Spec.valid_view Examples.scaled22
  /\ (0 < rows (Image.bitmap Examples.scaled22))%nat
  /\ (0 < cols (Image.bitmap Examples.scaled22))%nat
  /\ dtype3 (Image.bitmap Examples.scaled22)
     = dtype3 (Image.bitmap Examples.view22)
  /\ chans (Image.bitmap Examples.scaled22)
     = chans (Image.bitmap Examples.view22)
  /\ (0 < Image.length Examples.view22)%nat
  /\ (0 < rows (Image.depth Examples.view22)
          * cols (Image.depth Examples.view22))%nat
  /\ (0 < rows2 (Image.mask Examples.view22)
          * cols2 (Image.mask Examples.view22))%nat.
Proof.
  apply (scale_establishes_invariant Examples.view22 Examples.scaled22
           (1, 1)%Z); try reflexivity.
  left. reflexivity.
Defined.

Lemma mm_inj (A B : QAlg.qmat) :
  mm (QAlg.inj_mat A) (QAlg.inj_mat B) = QAlg.inj_mat (QAlg.qmm A B).
Proof.
  destruct A as [[[[a b] c] [[d e] f]] [[g h] i]].
  destruct B as [[[[a' b'] c'] [[d' e'] f']] [[g' h'] i']].
  reflexivity.
Qed.

Lemma floating_consts (d : dtype) :
  Spec.floating d ->
  cast d zero = zero /\ exists iq, cast d one = Num iq /\ (iq == 1)%Q.
Proof.
  intros [-> | ->]; (split; [reflexivity|]); eexists;
    (split; [reflexivity|]); vm_compute; reflexivity.
Qed.

Lemma cast_float32_bit (x : fval) :
  x = zero \/ x = one ->
  exists q,
    cast float32 x = Num q
    /\ (x = zero -> (q == 0)%Q) /\ (x = one -> (q == 1)%Q) /\ (0 <= q)%Q.
Proof.
  intros [-> | ->]; eexists; (split; [reflexivity|]); repeat split;
    try (intro E; vm_compute in E; discriminate);
    try (intros _; vm_compute; reflexivity);
    vm_compute; discriminate.
Qed.

Lemma source_tap_inside (inp out dst : nat) :
  (0 < inp)%nat -> (0 < out)%nat -> (dst < out)%nat ->
  let y0 := Z.to_nat (Qfloor (source_index inp out dst)) in
  (y0 < inp)%nat
  /\ ((if (y0 <? inp - 1)%nat then S y0 else y0) < inp)%nat.
Proof.
  intros Hinp Hout Hdst y0.
  assert (Hs : (0 <= source_index inp out dst)%Q
               /\ (source_index inp out dst < inject_Z (Z.of_nat inp))%Q).
  { unfold source_index. cbv zeta.
    set (a := inject_Z (Z.of_nat inp)). set (b := inject_Z (Z.of_nat out)).
    set (c := inject_Z (Z.of_nat dst)).
    assert (Ha : (0 < a)%Q).
    { unfold a. change 0%Q with (inject_Z 0). rewrite <- Zlt_Qlt. lia. }
    assert (Hb : (0 < b)%Q).
    { unfold b. change 0%Q with (inject_Z 0). rewrite <- Zlt_Qlt. lia. }
    assert (Hc : (c + 1 <= b)%Q).
    { unfold c, b. change 1%Q with (inject_Z 1).
      rewrite <- inject_Z_plus, <- Zle_Qle. lia. }
    destruct (Qle_bool 0 (a / b * (c + (1 # 2)) - (1 # 2))) eqn:E.
    - split; [apply Qle_bool_iff; exact E|].
      assert (Hab : (0 < a / b)%Q).
      { apply Qlt_shift_div_l; [exact Hb|]. lra. }
      assert (Hlt : (a / b * (c + (1 # 2)) < a / b * b)%Q).
      { apply Qmult_lt_l; [exact Hab | lra]. }
      assert (Eab : (a / b * b == a)%Q).
      { field. intro Hz. rewrite Hz in Hb. discriminate. }
      rewrite Eab in Hlt. lra.
    - split; [apply Qle_refl | exact Ha]. }
  destruct Hs as [Hs0 Hs1].
  assert (H0 : (0 <= Qfloor (source_index inp out dst))%Z).
  { change 0%Z with (Qfloor 0). apply Qfloor_resp_le. exact Hs0. }
  assert (H1 : (Qfloor (source_index inp out dst) < Z.of_nat inp)%Z).
  { rewrite Zlt_Qlt. eapply Qle_lt_trans; [apply Qfloor_le | exact Hs1]. }
  assert (Hy : (y0 < inp)%nat) by (unfold y0; lia).
  split; [exact Hy|].
  destruct (Nat.ltb_spec y0 (inp - 1)); lia.
Qed.

(** X12.  [scale] keeps a constant mask.  The mask of the scaled view is the
    bilinear resampling of the 0/1 mask converted back to bool, and the
    weights of each output pixel are not negative and sum to 1: when every
    pixel of the mask is True, every pixel of the scaled mask is True, and
    when every pixel is False, every pixel of the scaled mask is False. *)
Theorem scale_keeps_constant_mask
  (v v' : Image.t) (size : Z * Z) (b : fval) :
  Spec.valid_view v ->
  Image.scale v size = Ok v' ->
  b = zero \/ b = one ->
  (forall i j,
     (i < rows2 (Image.mask v))%nat -> (j < cols2 (Image.mask v))%nat ->
     at2 (Image.mask v) i j = b) ->
  forall i j,
    (i < rows2 (Image.mask v'))%nat -> (j < cols2 (Image.mask v'))%nat ->
    at2 (Image.mask v') i j = b.
Proof.
  intros Hv E Hb Hconst i j Hi Hj.
  destruct (scale_inv _ _ E) as [f [[oh ow] [b0 [d [m [_ [_ [_ [Em Ev]]]]]]]]].
  subst v'. clear E. cbn [Image.mask to2 rows2 cols2 at2] in *.
  unfold _rescale, F_interpolate in Em.
  cbn [to3 rows cols chans dtype3 at3 unsqueeze0] in Em.
  destruct (((0 <? oh)%Z && (0 <? ow)%Z)
            && ((0 <? 1)%nat && (0 <? rows2 (Image.mask v))%nat
                && (0 <? cols2 (Image.mask v))%nat)) eqn:Econd;
    [|discriminate].
  cbn [Py.bind] in Em. apply Ok_inj in Em. subst m.
  cbn [to3 rows cols chans dtype3 at3] in *.
  apply andb_true_iff in Econd. destruct Econd as [_ Econd].
  apply andb_true_iff in Econd. destruct Econd as [Econd Hc0].
  apply andb_true_iff in Econd. destruct Econd as [_ Hr0].
  apply Nat.ltb_lt in Hr0, Hc0.
  destruct (source_tap_inside (rows2 (Image.mask v)) (Z.to_nat oh) i)
    as [Hy0 Hy1]; [exact Hr0 | lia | exact Hi|].
  destruct (source_tap_inside (cols2 (Image.mask v)) (Z.to_nat ow) j)
    as [Hx0 Hx1]; [exact Hc0 | lia | exact Hj|].
  rewrite (Spec.mask_dtype Hv).
  destruct (cast_float32_bit b Hb) as [q [Eq [Hq0 [Hq1 _]]]].
  destruct ((Z.to_nat oh =? rows2 (Image.mask v))%nat
            && (Z.to_nat ow =? cols2 (Image.mask v))%nat) eqn:Esame.
  { apply andb_true_iff in Esame. destruct Esame as [Eh Ew].
    apply Nat.eqb_eq in Eh, Ew.
    rewrite Hconst by lia.
    destruct Hb as [-> | ->]; reflexivity. }
  rewrite !Hconst by assumption.
  rewrite Eq.
  cbn [Float.add Float.mul Float.sub Float.opp one].
  unfold cast. cbn [is_zero].
  destruct Hb as [-> | ->].
  - match goal with
    | |- context [Qeq_bool ?t 0] =>
        replace (Qeq_bool t 0) with true; [reflexivity|]
    end.
    symmetry. apply Qeq_bool_iff. rewrite (Hq0 eq_refl). ring.
  - match goal with
    | |- context [Qeq_bool ?t 0] =>
        replace (Qeq_bool t 0) with false; [reflexivity|]
    end.
    symmetry. apply not_true_is_false. intro Ez.
    apply Qeq_bool_iff in Ez. rewrite (Hq1 eq_refl) in Ez.
    assert (E1 : (1 == 0)%Q) by (rewrite <- Ez; ring).
    discriminate.
Qed.

Lemma scale_keeps_constant_mask_witness :
  at2 (Image.mask Examples.scaled22) 0 0 = one.
Proof.
  apply (scale_keeps_constant_mask Examples.view22 Examples.scaled22
           (1, 1)%Z one view22_valid).
  - reflexivity.
  - right. reflexivity.
  - intros i j _ _. reflexivity.
  - apply Nat.ltb_lt. reflexivity.
  - apply Nat.ltb_lt. reflexivity.
Defined.

(** *** Degenerate arguments of [scale] *)

Lemma truediv_zero (b : Z) : b <> 0%Z -> PyNum.truediv 0 b = Ok zero.
Proof.
  intro Hb. unfold PyNum.truediv.
  replace (b =? 0)%Z with false by (symmetry; apply Z.eqb_neq; exact Hb).
  unfold binary64, round_to.
  replace (Qeq_bool (inject_Z 0 / inject_Z b) 0) with true; [reflexivity|].
  symmetry. apply Qeq_bool_iff. unfold Qdiv. ring.
Qed.

Lemma truediv_returns (a b : Z) :
  (0 <= a <= 2147483648)%Z -> (0 < b <= 2147483648)%Z ->
  exists r,
    PyNum.truediv a b = Ok (Num r)
    /\ (a = 0%Z -> Num r = zero)
    /\ ((0 < a)%Z ->
        ((1 # 4294967296) <= r)%Q /\ (r <= 4294967296 # 1)%Q).
Proof.
  intros Ha Hb. destruct (Z.eq_dec a 0) as [-> | Hne].
  - exists 0%Q. split; [apply truediv_zero; lia|].
    split; [reflexivity | lia].
  - assert (Ha' : (0 < a <= 2147483648)%Z) by lia.
    destruct (truediv_rel Ha' Hb) as [r [Er [_ [_ [H1 H2]]]]].
    exists r. split; [exact Er|]. split; [lia|]. intros _. split; assumption.
Qed.

Lemma fdiv_one_finite (r : Q) :
  ((1 # 4294967296) <= r)%Q -> (r <= 4294967296 # 1)%Q ->
  exists f, PyNum.fdiv one (Num r) = Ok (Num f).
Proof.
  intros H1 H2.
  assert (Hr0 : (0 < r)%Q) by lra.
  assert (Hrz : Qeq_bool r 0 = false).
  { apply not_true_is_false. intro E. apply Qeq_bool_iff in E.
    rewrite E in Hr0. discriminate. }
  assert (Hg1 : ((1 # 4294967296) <= 1 / r)%Q).
  { apply Qle_shift_div_l; [exact Hr0 | lra]. }
  assert (Hg2 : (1 / r <= 4294967296 # 1)%Q).
  { apply Qle_shift_div_r; [exact Hr0 | lra]. }
  destruct (@binary64_rel (1 / r)) as [f [Ef _]]; try lra.
  exists f. unfold PyNum.fdiv, one. cbn [is_zero]. rewrite Hrz.
  cbn [Float.div]. rewrite Hrz. cbn [PyNum.round64]. rewrite Ef.
  reflexivity.
Qed.

Lemma int_fmul_zero (f : Q) : PyNum.int (PyNum.fmul (Num f) zero) = Ok 0%Z.
Proof.
  unfold PyNum.fmul, zero. cbn [Float.mul PyNum.round64].
  unfold binary64, round_to.
  replace (Qeq_bool (f * 0) 0) with true
    by (symmetry; apply Qeq_bool_iff; ring).
  reflexivity.
Qed.

Lemma gt_pos_zero (r : Q) :
  (0 < r)%Q -> gt (Num r) zero = true /\ gt zero (Num r) = false.
Proof.
  intro Hr. unfold gt, Float.lt, zero. split.
  - replace (Qle_bool r 0) with false; [reflexivity|].
    symmetry. apply not_true_is_false. intro E.
    apply Qle_bool_iff in E. lra.
  - replace (Qle_bool 0 r) with true; [reflexivity|].
    symmetry. apply Qle_bool_iff. lra.
Qed.

Lemma scale_size_error (v : Image.t) (size : Z * Z) (e : exn) :
  Image.scale_size (Image.shape v) size = Raise e ->
  Image.scale v size = Raise e.
Proof. unfold Image.scale. intros ->. reflexivity. Qed.

Lemma scale_size_empty (v : Image.t) (size : Z * Z) (f : fval)
  (nh nw : Z) :
  Image.scale_size (Image.shape v) size = Ok (f, (nh, nw)) ->
  (nh <= 0)%Z \/ (nw <= 0)%Z ->
  Image.scale v size = Raise RuntimeError.
Proof.
  unfold Image.scale. intros -> Hn. cbn [Py.bind].
  rewrite _rescale_empty by exact Hn. reflexivity.
Qed.

(** X13.  [scale] never returns a view for a target with a zero extent or
    for an empty bitmap (extents up to 2^31).  It raises ZeroDivisionError
    when the target height is 0, when the target width is 0, and when the
    bitmap is 0 x 0 (from [1 / max(0.0, 0.0)]); it raises RuntimeError, from
    the resampling to a size with a 0, when exactly one extent of the bitmap
    is 0. *)
Theorem scale_degenerate (v : Image.t) (Ht Wt : Z) :
  (Z.of_nat (rows (Image.bitmap v)) <= 2147483648)%Z ->
  (Z.of_nat (cols (Image.bitmap v)) <= 2147483648)%Z ->
  (Ht = 0%Z -> Image.scale v (Ht, Wt) = Raise ZeroDivisionError)
  /\ ((0 < Ht <= 2147483648)%Z -> Wt = 0%Z ->
      Image.scale v (Ht, Wt) = Raise ZeroDivisionError)
  /\ ((0 < Ht <= 2147483648)%Z -> (0 < Wt <= 2147483648)%Z ->
      rows (Image.bitmap v) = 0%nat -> cols (Image.bitmap v) = 0%nat ->
      Image.scale v (Ht, Wt) = Raise ZeroDivisionError)
  /\ ((0 < Ht <= 2147483648)%Z -> (0 < Wt <= 2147483648)%Z ->
      (rows (Image.bitmap v) = 0%nat /\ (0 < cols (Image.bitmap v))%nat)
      \/ ((0 < rows (Image.bitmap v))%nat /\ cols (Image.bitmap v) = 0%nat) ->
      Image.scale v (Ht, Wt) = Raise RuntimeError).
Proof.
  intros HH HW.
  assert (HH' : (0 <= Z.of_nat (rows (Image.bitmap v)) <= 2147483648)%Z)
    by lia.
  assert (HW' : (0 <= Z.of_nat (cols (Image.bitmap v)) <= 2147483648)%Z)
    by lia.
  split; [|split; [|split]].
  - intros ->. apply scale_size_error. reflexivity.
  - intros HHt ->. apply scale_size_error.
    unfold Image.scale_size, Image.shape. cbn [fst snd].
    destruct (truediv_returns _ _ HH' HHt) as [r [-> _]].
    reflexivity.
  - intros HHt HWt Hr Hc. apply scale_size_error.
    unfold Image.scale_size, Image.shape. cbn [fst snd].
    rewrite Hr, Hc. cbn [Z.of_nat].
    rewrite !truediv_zero by lia. reflexivity.
  - intros HHt HWt [[Hr Hc] | [Hr Hc]].
    + destruct (truediv_returns _ _ HW' HWt) as [r [Er [_ Hb]]].
      destruct Hb as [H1 H2]; [lia|].
      destruct (fdiv_one_finite r H1 H2) as [f Ef].
      destruct (gt_pos_zero r) as [G1 G2]; [lra|].
      apply (scale_size_empty v (Ht, Wt) (Num f) 0 Wt); [|left; lia].
      unfold Image.scale_size, Image.shape. cbn [fst snd].
      rewrite Hr, Er. cbn [Z.of_nat]. rewrite truediv_zero by lia.
      cbn [Py.bind]. unfold PyNum.max. rewrite G1, G2, Ef. cbn [Py.bind].
      change (PyNum.float_of_int 0) with (Ok zero). cbn [Py.bind].
      rewrite int_fmul_zero. reflexivity.
    + destruct (truediv_returns _ _ HH' HHt) as [r [Er [_ Hb]]].
      destruct Hb as [H1 H2]; [lia|].
      destruct (fdiv_one_finite r H1 H2) as [f Ef].
      destruct (gt_pos_zero r) as [G1 G2]; [lra|].
      apply (scale_size_empty v (Ht, Wt) (Num f) Ht 0); [|right; lia].
      unfold Image.scale_size, Image.shape. cbn [fst snd].
      rewrite Hc, Er. cbn [Z.of_nat]. rewrite truediv_zero by lia.
      cbn [Py.bind]. unfold PyNum.max. rewrite G1, G2, Ef. cbn [Py.bind].
      change (PyNum.float_of_int 0) with (Ok zero). cbn [Py.bind].
      rewrite int_fmul_zero. reflexivity.
Qed.

Lemma scale_degenerate_witness :
  (2%Z = 0%Z ->
   Image.scale Examples.view_empty (2, 2)%Z = Raise ZeroDivisionError)
  /\ ((0 < 2 <= 2147483648)%Z -> 2%Z = 0%Z ->
      Image.scale Examples.view_empty (2, 2)%Z = Raise ZeroDivisionError)
  /\ ((0 < 2 <= 2147483648)%Z -> (0 < 2 <= 2147483648)%Z ->
      rows (Image.bitmap Examples.view_empty) = 0%nat ->
      cols (Image.bitmap Examples.view_empty) = 0%nat ->
      Image.scale Examples.view_empty (2, 2)%Z = Raise ZeroDivisionError)
  /\ ((0 < 2 <= 2147483648)%Z -> (0 < 2 <= 2147483648)%Z ->
      (rows (Image.bitmap Examples.view_empty) = 0%nat
       /\ (0 < cols (Image.bitmap Examples.view_empty))%nat)
      \/ ((0 < rows (Image.bitmap Examples.view_empty))%nat
          /\ cols (Image.bitmap Examples.view_empty) = 0%nat) ->
      Image.scale Examples.view_empty (2, 2)%Z = Raise RuntimeError).
Proof.
  apply (scale_degenerate Examples.view_empty 2 2); simpl; lia.
Defined.

(** *** Exact results of rounding, and the factor for the own shape *)

Lemma round_to_exact (prec emin emax : Z) (q : Q) (n k : Z) :
  (0 < prec)%Z -> (emin <= 0)%Z -> (0 < n <= 2 ^ prec)%Z ->
  (inject_Z n <= pow2 k)%Q -> (k < emax)%Z ->
  (q == inject_Z n)%Q ->
  exists r, round_to prec emin emax q = Num r /\ (r == inject_Z n)%Q.
Proof.
  intros Hp He Hn Hk Hke Hq.
  assert (Hpos : (0 <= inject_Z n)%Q).
  { change 0%Q with (inject_Z 0). rewrite <- Zle_Qle. lia. }
  assert (Hfmt : in_format prec emin emax q).
  { right. exists n, 0%Z. split; [exact Hn|]. split; [exact He|].
    rewrite Hq, (Qabs_pos _ Hpos). split.
    - unfold pow2. simpl. ring.
    - eapply Qle_lt_trans; [exact Hk|]. apply pow2_lt. exact Hke. }
  pose proof (@round_to_fixed prec emin emax prec emin emax q) as Hs.
  destruct (same_Num_inv (round_to prec emin emax q) q) as [r [Er Hr]].
  { apply Hs; try lia. exact Hfmt. }
  exists r. split; [exact Er|]. rewrite Hr. exact Hq.
Qed.

Lemma binary64_exact_int (q : Q) (n : Z) :
  (0 < n <= 2147483648)%Z -> (q == inject_Z n)%Q ->
  exists r, binary64 q = Num r /\ (r == inject_Z n)%Q.
Proof.
  intros Hn Hq.
  apply (round_to_exact 53 (-1074) 1024 q n 31); try lia; try exact Hq.
  change (pow2 31) with (inject_Z 2147483648). rewrite <- Zle_Qle. lia.
Qed.

Lemma cast_floating_unit (d : dtype) (q : Q) :
  Spec.floating d -> (q == 1)%Q ->
  exists r, cast d (Num q) = Num r /\ (r == 1)%Q.
Proof.
  intros [-> | ->] Hq; cbn [cast]; unfold binary32, binary64.
  - apply (round_to_exact 24 (-149) 128 q 1 0); try lia; try exact Hq.
    apply Qle_refl.
  - apply (round_to_exact 53 (-1074) 1024 q 1 0); try lia; try exact Hq.
    apply Qle_refl.
Qed.

Lemma Qtrunc_eq (p : Q) (n : Z) : (p == inject_Z n)%Q -> Qtrunc p = n.
Proof.
  unfold Qeq, Qtrunc. simpl. intro E. rewrite Z.mul_1_r in E. rewrite E.
  apply Z.quot_mul. discriminate.
Qed.

Lemma truediv_self (a : Z) :
  (0 < a)%Z -> exists r, PyNum.truediv a a = Ok (Num r) /\ (r == 1)%Q.
Proof.
  intro Ha.
  destruct (binary64_exact_int (inject_Z a / inject_Z a) 1) as [r [Er Hr]];
    [lia | |].
  - change (inject_Z 1) with 1%Q. field. intro E.
    unfold Qeq in E. simpl in E. lia.
  - exists r. unfold PyNum.truediv.
    replace (a =? 0)%Z with false by (symmetry; apply Z.eqb_neq; lia).
    rewrite Er. split; [reflexivity | exact Hr].
Qed.

(** The size and the factor computed for the view's own shape. *)
Lemma scale_size_own (H W : nat) :
  (0 < Z.of_nat H <= 2147483648)%Z -> (0 < Z.of_nat W)%Z ->
  exists f,
    Image.scale_size (H, W) (Z.of_nat H, Z.of_nat W)
    = Ok (Num f, (Z.of_nat H, Z.of_nat W))
    /\ (f == 1)%Q.
Proof.
  intros HH HW.
  destruct (truediv_self (Z.of_nat H)) as [r1 [E1 Hr1]]; [lia|].
  destruct (truediv_self (Z.of_nat W)) as [r2 [E2 Hr2]]; [lia|].
  assert (L12 : Qle_bool r1 r2 = true).
  { apply Qle_bool_iff. rewrite Hr1, Hr2. apply Qle_refl. }
  assert (L21 : Qle_bool r2 r1 = true).
  { apply Qle_bool_iff. rewrite Hr1, Hr2. apply Qle_refl. }
  assert (Z1 : Qeq_bool r1 0 = false).
  { apply not_true_is_false. intro E. apply Qeq_bool_iff in E.
    rewrite Hr1 in E. discriminate. }
  destruct (binary64_exact_int (1 / r1) 1) as [f [Ef Hf]]; [lia | |].
  { rewrite Hr1. reflexivity. }
  destruct (binary64_exact_int (inject_Z (Z.of_nat H)) (Z.of_nat H))
    as [w [Ew Hw]]; [lia | reflexivity |].
  destruct (binary64_exact_int (f * w) (Z.of_nat H)) as [p [Ep Hp]];
    [lia | |].
  { rewrite Hf, Hw. change (inject_Z 1) with 1%Q. ring. }
  exists f. split; [|exact Hf].
  unfold Image.scale_size. cbn [fst snd]. rewrite E1, E2. cbn [Py.bind].
  unfold PyNum.max, gt, Float.lt. rewrite L12, L21. cbn [negb].
  unfold PyNum.fdiv, one. cbn [is_zero]. rewrite Z1.
  cbn [Float.div]. rewrite Z1. cbn [PyNum.round64]. rewrite Ef.
  cbn [Py.bind]. unfold PyNum.float_of_int. rewrite Ew. cbn [Py.bind].
  unfold PyNum.fmul. cbn [Float.mul PyNum.round64]. rewrite Ep.
  cbn [PyNum.int Py.bind]. rewrite (Qtrunc_eq p _ Hp). reflexivity.
Qed.

(** *** Conversion with [to] *)





Lemma same_refl (a : fval) : Float.same a a.
Proof. destruct a; simpl; try exact I. apply Qeq_refl. Qed.

Lemma cast_idempotent (d : dtype) (x : fval) :
  Float.same (cast d (cast d x)) (cast d x).
Proof.
  destruct d.
  - apply cast_float32_fixed. left. reflexivity.
  - apply (round64_fixed x).
  - destruct x as [q | | |]; cbn [cast]; try (vm_compute; reflexivity).
    unfold of_Z. cbn [cast]. rewrite Qtrunc_inject_Z.
    rewrite Z.mod_mod by discriminate. apply same_refl.
  - unfold cast. destruct (is_zero x); vm_compute; reflexivity.
Qed.

Lemma vec_to_idempotent (d : dtype) (u : vec3) :
  Spec.same_vec (vec_to d (vec_to d u)) (vec_to d u).
Proof.
  destruct u as [[a b] c]. cbn [vec_to Spec.same_vec].
  repeat split; apply cast_idempotent.
Qed.

Lemma mat_to_idempotent (d : dtype) (M : mat3) :
  Spec.same_mat (mat_to d (mat_to d M)) (mat_to d M).
Proof.
  destruct M as [[r0 r1] r2]. cbn [mat_to Spec.same_mat].
  repeat split; apply vec_to_idempotent.
Qed.

(** X16.  [to] is idempotent: converting a view to a dtype twice gives the
    view converted once: the same dtypes and extents, the same bitmap, and
    the same value at every entry of K, R, T, the depth raster and the mask,
    for each of the four dtypes.  After a conversion to a dtype other than
    bool the mask is no longer a bool tensor: it has that dtype. *)
Theorem to_is_idempotent (v : Image.t) (d : dtype) :
  let v1 := Image.to v (Some d) in
  let v2 := Image.to v1 (Some d) in
  Image.bitmap v2 = Image.bitmap v
  /\ mdtype (Image.K v2) = d /\ mdtype (Image.K v1) = d
  /\ dtype3 (Image.depth v2) = d /\ dtype3 (Image.depth v1) = d
  /\ dtype2 (Image.mask v2) = d /\ dtype2 (Image.mask v1) = d
  /\ Spec.same_mat (mval (Image.K v2)) (mval (Image.K v1))
  /\ Spec.same_mat (Image.R v2) (Image.R v1)
  /\ Spec.same_vec (Image.T v2) (Image.T v1)
  /\ (forall c i j,
        Float.same (at3 (Image.depth v2) c i j) (at3 (Image.depth v1) c i j))
  /\ (forall i j,
        Float.same (at2 (Image.mask v2) i j) (at2 (Image.mask v1) i j))
  /\ Image.shape v2 = Image.shape v
  /\ (chans (Image.depth v2), rows (Image.depth v2), cols (Image.depth v2))
     = (chans (Image.depth v), rows (Image.depth v), cols (Image.depth v))
  /\ (rows2 (Image.mask v2), cols2 (Image.mask v2))
     = (rows2 (Image.mask v), cols2 (Image.mask v)).
Proof.
  cbv zeta. cbn [Image.to Image.K Image.R Image.T Image.depth Image.bitmap
                 Image.mask mdtype mval to3 to2 dtype3 dtype2 at3 at2
                 chans rows cols rows2 cols2].
  repeat (split; [reflexivity|]).
  split; [apply mat_to_idempotent|].
  split; [apply mat_to_idempotent|].
  split; [apply vec_to_idempotent|].
  split; [intros c i j; apply cast_idempotent|].
  split; [intros i j; apply cast_idempotent|].
  repeat split; reflexivity.
Qed.

(** *** Depth lookup in a padded view *)

Lemma valid_Num (v : Image.t) (x y : Q) :
  (0 <= x)%Q -> (x <= inject_Z (Z.of_nat (cols (Image.bitmap v))))%Q ->
  (0 <= y)%Q -> (y <= inject_Z (Z.of_nat (rows (Image.bitmap v))))%Q ->
  Spec.valid v (Num x, Num y) = true.
Proof.
  intros Hx0 Hx1 Hy0 Hy1.
  rewrite valid_unfold, in_range_mask_cons, in_range_mask_nil.
  cbn [fst snd hd isfinite]. rewrite andb_true_r.
  apply in_range_within. split; split; assumption.
Qed.

Lemma index3_inside (t : tensor3) (y x : Q) :
  (0 < chans t)%nat ->
  (0 <= y)%Q -> (y < inject_Z (Z.of_nat (rows t)))%Q ->
  (0 <= x)%Q -> (x < inject_Z (Z.of_nat (cols t)))%Q ->
  index3 t 0 [(Qtrunc y, Qtrunc x)]
  = Ok [at3 t 0 (Z.to_nat (Qtrunc y)) (Z.to_nat (Qtrunc x))]
  /\ (Z.to_nat (Qtrunc y) < rows t)%nat
  /\ (Z.to_nat (Qtrunc x) < cols t)%nat.
Proof.
  intros Hc Hy0 Hy1 Hx0 Hx1.
  assert (By : (0 <= Qtrunc y <= Z.of_nat (rows t) - 1)%Z).
  { apply Qtrunc_bounds; [exact Hy0|].
    change 1%Q with (inject_Z 1). rewrite <- inject_Z_plus.
    replace (Z.of_nat (rows t) - 1 + 1)%Z with (Z.of_nat (rows t)) by ring.
    exact Hy1. }
  assert (Bx : (0 <= Qtrunc x <= Z.of_nat (cols t) - 1)%Z).
  { apply Qtrunc_bounds; [exact Hx0|].
    change 1%Q with (inject_Z 1). rewrite <- inject_Z_plus.
    replace (Z.of_nat (cols t) - 1 + 1)%Z with (Z.of_nat (cols t)) by ring.
    exact Hx1. }
  split; [|split; lia].
  unfold index3.
  rewrite (@norm_index_inside (chans t) 0) by lia. cbn [Py.bind gather].
  rewrite (@norm_index_inside (rows t) (Qtrunc y)) by lia.
  rewrite (@norm_index_inside (cols t) (Qtrunc x)) by lia.
  reflexivity.
Qed.

(** X17.  Depth lookup after [pad].  In the view padded (or cropped) to
    (Ht, Wt), a coordinate with 0 <= x < Wt and 0 <= y < Ht is looked up
    without error: it gets the stored depth, after the float32 round trip of
    [_pad], when its pixel lies in the original raster, and NaN when it lies
    in the appended region.  So a coordinate on the old boundary x = W, for
    which the lookup in the original view raises, gives NaN once the view is
    padded to a larger width. *)
Theorem fetch_depth_after_pad (v : Image.t) (Ht Wt : Z) (x y : Q) :
  (0 < chans (Image.depth v))%nat ->
  Spec.floating (dtype3 (Image.depth v)) ->
  (0 <= x)%Q -> (x < inject_Z Wt)%Q -> (0 <= y)%Q -> (y < inject_Z Ht)%Q ->
  let i := Z.to_nat (to_int64 (Num y)) in
  let j := Z.to_nat (to_int64 (Num x)) in
  exists v' z,
    Image.pad v (Ht, Wt) = Ok v'
    /\ Image.fetch_depth v' [(Num x, Num y)] = Ok [z]
    /\ ((i < rows (Image.depth v))%nat /\ (j < cols (Image.depth v))%nat ->
        z = cast (dtype3 (Image.depth v))
              (cast float32 (at3 (Image.depth v) 0 i j)))
    /\ ((rows (Image.depth v) <= i)%nat \/ (cols (Image.depth v) <= j)%nat ->
        z = NaN).
Proof.
  intros Hch Hfl Hx0 Hx1 Hy0 Hy1 i j.
  assert (HW : (0 < Wt)%Z).
  { rewrite Zlt_Qlt. eapply Qle_lt_trans; [exact Hx0 | exact Hx1]. }
  assert (HH : (0 < Ht)%Z).
  { rewrite Zlt_Qlt. eapply Qle_lt_trans; [exact Hy0 | exact Hy1]. }
  destruct (pad_result v Ht Wt HH HW)
    as [b [d [m [E [[_ [_ [Hb3 [Hb4 _]]]]
                      [[Hd1 [Hd2 [Hd3 [Hd4 Hd5]]]] _]]]]]].
  eexists. exists (at3 d 0 i j). split; [exact E|].
  destruct (index3_inside d y x) as [Ei [Bi Bj]];
    try assumption; try (rewrite Hd2; exact Hch);
    try (rewrite Hd3; exact Hy1); try (rewrite Hd4; exact Hx1).
  split.
  - apply fetch_depth_single.
    + cbn [Image.depth]. rewrite Hd1. exact Hfl.
    + apply valid_Num; cbn [Image.bitmap]; try assumption.
      * rewrite Hb4. apply Qlt_le_weak. exact Hx1.
      * rewrite Hb3. apply Qlt_le_weak. exact Hy1.
    + cbn [Image.depth fst snd to_int64]. exact Ei.
  - rewrite Hd5. split.
    + intros [Hi Hj]. apply Nat.ltb_lt in Hi, Hj. rewrite Hi, Hj.
      reflexivity.
    + intro Hout.
      replace ((i <? rows (Image.depth v)) && (j <? cols (Image.depth v)))%nat
        with false.
      * cbn [cast]. apply cast_floating_NaN. exact Hfl.
      * symmetry. apply andb_false_iff.
        destruct Hout; [left | right]; apply Nat.ltb_ge; assumption.
Qed.

Lemma fetch_depth_after_pad_witness :
  let i := Z.to_nat (to_int64 (Num 0)) in
  let j := Z.to_nat (to_int64 (Num 1)) in
  exists v' z,
    Image.pad Examples.view11 (1, 3)%Z = Ok v'
    /\ Image.fetch_depth v' [(Num 1, Num 0)] = Ok [z]
    /\ ((i < rows (Image.depth Examples.view11))%nat
        /\ (j < cols (Image.depth Examples.view11))%nat ->
        z = cast (dtype3 (Image.depth Examples.view11))
              (cast float32 (at3 (Image.depth Examples.view11) 0 i j)))
    /\ ((rows (Image.depth Examples.view11) <= i)%nat
        \/ (cols (Image.depth Examples.view11) <= j)%nat ->
        z = NaN).
Proof.
  apply (fetch_depth_after_pad Examples.view11 1 3 1 0).
  - apply Nat.ltb_lt. reflexivity.
  - left. reflexivity.
  - vm_compute. discriminate.
  - vm_compute. reflexivity.
  - vm_compute. discriminate.
  - vm_compute. reflexivity.
Defined.

(** *** Padding in two steps *)

Lemma Qeq_bool_proper (p q r : Q) : (p == q)%Q -> Qeq_bool p r = Qeq_bool q r.
Proof.
  intro E. destruct (Qeq_bool q r) eqn:Eq.
  - apply Qeq_bool_iff. apply Qeq_bool_iff in Eq. rewrite E. exact Eq.
  - apply not_true_is_false. intro Ep. apply Qeq_bool_iff in Ep.
    rewrite E in Ep. apply Qeq_bool_iff in Ep. congruence.
Qed.

Lemma Qle_bool_proper_r (p q r : Q) :
  (p == q)%Q -> Qle_bool r p = Qle_bool r q.
Proof.
  intro E. destruct (Qle_bool r q) eqn:Eq.
  - apply Qle_bool_iff. apply Qle_bool_iff in Eq. rewrite E. exact Eq.
  - apply not_true_is_false. intro Ep. apply Qle_bool_iff in Ep.
    rewrite E in Ep. apply Qle_bool_iff in Ep. congruence.
Qed.

Lemma ilog2_proper (p q : Q) : (0 < p)%Q -> (p == q)%Q -> ilog2 p = ilog2 q.
Proof.
  intros Hp E.
  assert (Hq : (0 < q)%Q) by (rewrite <- E; exact Hp).
  destruct (ilog2_spec Hp) as [P1 P2]. destruct (ilog2_spec Hq) as [Q1 Q2].
  assert (L1 : (ilog2 p < ilog2 q + 1)%Z).
  { apply pow2_lt_inv. eapply Qle_lt_trans; [exact P1|].
    apply Qle_lt_trans with q; [rewrite E; apply Qle_refl | exact Q2]. }
  assert (L2 : (ilog2 q < ilog2 p + 1)%Z).
  { apply pow2_lt_inv. eapply Qle_lt_trans; [exact Q1|].
    apply Qle_lt_trans with p; [rewrite E; apply Qle_refl | exact P2]. }
  lia.
Qed.

Lemma rne_proper (p q : Q) : (p == q)%Q -> rne p = rne q.
Proof.
  intro E. unfold rne. rewrite (Qfloor_comp _ _ E).
  assert (Ec : (p - inject_Z (Qfloor q) == q - inject_Z (Qfloor q))%Q)
    by (rewrite E; reflexivity).
  rewrite (Qcompare_comp _ _ Ec _ _ (Qeq_refl (1 # 2))). reflexivity.
Qed.

(** Rounding depends on the number only, not on its representation. *)
Lemma round_to_proper (prec emin emax : Z) (p q : Q) :
  (p == q)%Q -> round_to prec emin emax p = round_to prec emin emax q.
Proof.
  intro E. unfold round_to.
  rewrite (Qeq_bool_proper p q 0 E).
  destruct (Qeq_bool q 0) eqn:Ez; [reflexivity|].
  assert (Hq : ~ (q == 0)%Q).
  { intro Hc. apply Qeq_bool_iff in Hc. congruence. }
  assert (Hp : ~ (p == 0)%Q) by (rewrite E; exact Hq).
  assert (Ea : (Qabs p == Qabs q)%Q) by (rewrite E; reflexivity).
  rewrite (ilog2_proper (Qabs p) (Qabs q) (Qabs_pos_of_neq Hp) Ea).
  set (ex := Z.max (ilog2 (Qabs q) - prec + 1) emin).
  assert (Er : rne (Qabs p / pow2 ex) = rne (Qabs q / pow2 ex)).
  { apply rne_proper. rewrite Ea. reflexivity. }
  rewrite Er, (Qle_bool_proper_r p q 0 E). reflexivity.
Qed.

Lemma cast_same (d : dtype) (a b : fval) :
  Float.same a b -> Float.same (cast d a) (cast d b).
Proof.
  destruct a as [p | | |], b as [q | | |]; cbn [Float.same];
    try contradiction; intro E; try apply same_refl.
  destruct d; cbn [cast]; unfold binary32, binary64.
  - rewrite (round_to_proper 24 (-149) 128 p q E). apply same_refl.
  - rewrite (round_to_proper 53 (-1074) 1024 p q E). apply same_refl.
  - assert (Et : Qtrunc p = Qtrunc q).
    { destruct (Qlt_le_dec p 0) as [Hn | Hp].
      - assert (Hq : (q < 0)%Q) by (rewrite <- E; exact Hn).
        assert (E' : (- p == - q)%Q) by (rewrite E; reflexivity).
        assert (Tp : Qtrunc p = (- Qtrunc (- p))%Z).
        { unfold Qtrunc. simpl. rewrite Z.quot_opp_l by discriminate. lia. }
        assert (Tq : Qtrunc q = (- Qtrunc (- q))%Z).
        { unfold Qtrunc. simpl. rewrite Z.quot_opp_l by discriminate. lia. }
        rewrite Tp, Tq, !Qtrunc_floor by lra.
        rewrite (Qfloor_comp _ _ E'). reflexivity.
      - assert (Hq : (0 <= q)%Q) by (rewrite <- E; exact Hp).
        rewrite !Qtrunc_floor by assumption.
        apply Qfloor_comp. exact E. }
    rewrite Et. apply same_refl.
  - unfold cast, is_zero. rewrite (Qeq_bool_proper p q 0 E).
    apply same_refl.
Qed.

Lemma cast_uint8_range (x : fval) :
  exists z, (0 <= z <= 255)%Z /\ cast uint8 x = of_Z z.
Proof.
  destruct x as [q | | |]; cbn [cast];
    try (exists 0%Z; split; [lia | reflexivity]).
  exists (Qtrunc q mod 256)%Z. split; [|reflexivity].
  pose proof (Z.mod_pos_bound (Qtrunc q) 256). lia.
Qed.

(** One conversion through float32 and back to the dtype is as good as
    two. *)
Lemma pad_round_trip_idempotent (d : dtype) (x : fval) :
  Float.same (cast d (cast float32 (cast d (cast float32 x))))
    (cast d (cast float32 x)).
Proof.
  destruct d.
  - eapply same_trans; [apply (cast_idempotent float32)|].
    apply (cast_idempotent float32).
  - set (b := cast float32 x).
    assert (Hab : Float.same (cast float64 b) b).
    { apply cast_float32_fixed. right. reflexivity. }
    assert (H1 : Float.same (cast float32 (cast float64 b)) b).
    { eapply same_trans; [apply cast_same; exact Hab|].
      apply (cast_idempotent float32). }
    apply cast_same. exact H1.
  - destruct (cast_uint8_range (cast float32 x)) as [z [Hz ->]].
    rewrite (uint8_round_trip Hz). apply same_refl.
  - destruct (cast_bool_values (cast float32 x)) as [-> | ->];
      vm_compute; reflexivity.
Qed.

Lemma bool_of_padded_zero (d : dtype) :
  cast torch_bool (cast d (cast float32 zero)) = zero.
Proof. destruct d; vm_compute; reflexivity. Qed.

(** X19.  Padding in two steps is padding in one step.  If no raster of the
    view exceeds the first target, padding to the first target and then
    padding (or cropping) to a second one returns a view with the K, R, T,
    the dtypes, the extents and, at every position, the bitmap, depth and
    mask values of the view padded directly to the second target. *)
Theorem pad_twice (v : Image.t) (H1 W1 H2 W2 : Z) :
  (0 < H1)%Z -> (0 < W1)%Z -> (0 < H2)%Z -> (0 < W2)%Z ->
  (Z.of_nat (rows (Image.bitmap v)) <= H1)%Z ->
  (Z.of_nat (cols (Image.bitmap v)) <= W1)%Z ->
  (Z.of_nat (rows (Image.depth v)) <= H1)%Z ->
  (Z.of_nat (cols (Image.depth v)) <= W1)%Z ->
  (Z.of_nat (rows2 (Image.mask v)) <= H1)%Z ->
  (Z.of_nat (cols2 (Image.mask v)) <= W1)%Z ->
  exists v1 v12 v2,
    Image.pad v (H1, W1) = Ok v1
    /\ Image.pad v1 (H2, W2) = Ok v12
    /\ Image.pad v (H2, W2) = Ok v2
    /\ Image.K v12 = Image.K v2 /\ Image.R v12 = Image.R v2
    /\ Image.T v12 = Image.T v2
    /\ Image.shape v12 = Image.shape v2
    /\ dtype3 (Image.bitmap v12) = dtype3 (Image.bitmap v2)
    /\ dtype3 (Image.depth v12) = dtype3 (Image.depth v2)
    /\ (forall c i j,
          Float.same (at3 (Image.bitmap v12) c i j)
            (at3 (Image.bitmap v2) c i j))
    /\ (forall c i j,
          Float.same (at3 (Image.depth v12) c i j)
            (at3 (Image.depth v2) c i j))
    /\ (forall i j,
          Float.same (at2 (Image.mask v12) i j) (at2 (Image.mask v2) i j)).
Proof.
  intros P1 P2 P3 P4 Bbr Bbc Bdr Bdc Bmr Bmc.
  destruct (pad_result v H1 W1 P1 P2)
    as [b1 [d1 [m1 [E1 [[Tb1 [Cb1 [Rb1 [Kb1 Vb1]]]]
                         [[Td1 [Cd1 [Rd1 [Kd1 Vd1]]]]
                          [Rm1 [Km1 Vm1]]]]]]]].
  destruct (pad_result v H2 W2 P3 P4)
    as [b2 [d2 [m2 [E2 [[Tb2 [Cb2 [Rb2 [Kb2 Vb2]]]]
                         [[Td2 [Cd2 [Rd2 [Kd2 Vd2]]]]
                          [Rm2 [Km2 Vm2]]]]]]]].
  set (v1 := Image.Build (Image.K v) (Image.R v) (Image.T v) d1 b1
               (to2 torch_bool
                  (Tensor2 (dtype3 m1) (rows m1) (cols m1)
                     (fun i j => at3 m1 0 i j)))) in *.
  destruct (pad_result v1 H2 W2 P3 P4)
    as [b3 [d3 [m3 [E3 [[Tb3 [Cb3 [Rb3 [Kb3 Vb3]]]]
                         [[Td3 [Cd3 [Rd3 [Kd3 Vd3]]]]
                          [Rm3 [Km3 Vm3]]]]]]]].
  eexists. eexists. eexists.
  split; [exact E1|]. split; [exact E3|]. split; [exact E2|].
  subst v1. unfold Image.shape.
  cbn [Image.K Image.R Image.T Image.bitmap Image.depth Image.mask
       to2 dtype2 rows2 cols2 at2] in *.
  repeat (split; [reflexivity|]).
  split; [f_equal; lia|].
  split; [congruence|]. split; [congruence|].
  assert (Hin : forall (r1 c1 r0 c0 i j : nat),
             Z.of_nat r1 = H1 -> Z.of_nat c1 = W1 ->
             (Z.of_nat r0 <= H1)%Z -> (Z.of_nat c0 <= W1)%Z ->
             ((i <? r1) && (j <? c1))%nat = false ->
             ((i <? r0) && (j <? c0))%nat = false).
  { intros r1 c1 r0 c0 i j Er Ec Lr Lc Hf.
    apply andb_false_iff in Hf. apply andb_false_iff.
    destruct Hf as [Hf | Hf]; apply Nat.ltb_ge in Hf;
      [left | right]; apply Nat.ltb_ge; lia. }
  split; [|split].
  - intros c i j. rewrite Vb3, Vb2, Tb1.
    destruct ((i <? rows b1) && (j <? cols b1))%nat eqn:In1.
    + rewrite Vb1.
      match goal with
      | |- context [if ?t then cast float32 _ else _] => destruct t
      end; apply pad_round_trip_idempotent.
    + rewrite (Hin _ _ _ _ i j Rb1 Kb1 Bbr Bbc In1). apply same_refl.
  - intros c i j. rewrite Vd3, Vd2, Td1.
    destruct ((i <? rows d1) && (j <? cols d1))%nat eqn:In1.
    + rewrite Vd1.
      match goal with
      | |- context [if ?t then cast float32 _ else _] => destruct t
      end; apply pad_round_trip_idempotent.
    + rewrite (Hin _ _ _ _ i j Rd1 Kd1 Bdr Bdc In1). apply same_refl.
  - intros i j. rewrite Vm3, Vm2.
    cbn [dtype2 rows2 cols2 at2].
    destruct ((i <? rows m1) && (j <? cols m1))%nat eqn:In1.
    + rewrite Vm1.
      destruct (cast_bool_values
                  (cast (dtype2 (Image.mask v))
                     (if ((i <? rows2 (Image.mask v))
                          && (j <? cols2 (Image.mask v)))%nat
                      then cast float32 (at2 (Image.mask v) i j)
                      else cast float32 zero))) as [Eb | Eb];
        rewrite Eb; vm_compute; reflexivity.
    + rewrite (Hin _ _ _ _ i j Rm1 Km1 Bmr Bmc In1).
      rewrite !bool_of_padded_zero. apply same_refl.
Qed.

Lemma pad_twice_witness :
  exists v1 v12 v2,
    Image.pad Examples.view22 (3, 3)%Z = Ok v1
    /\ Image.pad v1 (2, 4)%Z = Ok v12
    /\ Image.pad Examples.view22 (2, 4)%Z = Ok v2
    /\ Image.K v12 = Image.K v2 /\ Image.R v12 = Image.R v2
    /\ Image.T v12 = Image.T v2
    /\ Image.shape v12 = Image.shape v2
    /\ dtype3 (Image.bitmap v12) = dtype3 (Image.bitmap v2)
    /\ dtype3 (Image.depth v12) = dtype3 (Image.depth v2)
    /\ (forall c i j,
          Float.same (at3 (Image.bitmap v12) c i j)
            (at3 (Image.bitmap v2) c i j))
    /\ (forall c i j,
          Float.same (at3 (Image.depth v12) c i j)
            (at3 (Image.depth v2) c i j))
    /\ (forall i j,
          Float.same (at2 (Image.mask v12) i j) (at2 (Image.mask v2) i j)).
Proof.
  apply (pad_twice Examples.view22 3 3 2 4); simpl; lia.
Defined.

(** *** Intrinsics after scaling to the own shape *)

(** X14.  Scaling a view to its own shape is not the identity.  For a valid
    non-empty view (extents up to 2^31) the computed factor is exactly 1 and
    the returned view has the same shape, but its intrinsics are
    [[1,0,1],[0,1,1],[0,0,1]] @ K: with a finite floating K, the first two
    rows of the new K are the sums of the corresponding row of K and its
    last row, in K's dtype, and the last row is unchanged, so the principal
    point of a K with last row (0, 0, 1) moves by one pixel.  (With the
    factor 1 every product is exact and each entry is a single sum, rounded
    once into K's dtype.) *)
Theorem scale_to_own_shape (v : Image.t) (Kq : QAlg.qmat) :
  Spec.valid_view v -> (0 < chans (Image.bitmap v))%nat ->
  (0 < Z.of_nat (rows (Image.bitmap v)) <= 2147483648)%Z ->
  (0 < Z.of_nat (cols (Image.bitmap v)) <= 2147483648)%Z ->
  mval (Image.K v) = QAlg.inj_mat Kq ->
  Spec.floating (mdtype (Image.K v)) ->
  let size :=
    (Z.of_nat (rows (Image.bitmap v)), Z.of_nat (cols (Image.bitmap v))) in
  exists f v',
    Image.scale_size (Image.shape v) size = Ok (f, size)
    /\ Float.same f one
    /\ Image.scale v size = Ok v'
    /\ Image.shape v' = Image.shape v
    /\ mdtype (Image.K v') = mdtype (Image.K v)
    /\ Spec.same_mat
         (mat_to (mdtype (Image.K v)) (mval (Image.K v')))
         (mat_to (mdtype (Image.K v))
            (QAlg.inj_mat
               (let '(r0, r1, r2) := Kq in
                (QAlg.qvadd r0 r2, QAlg.qvadd r1 r2, r2)))).
Proof.
  intros Hv Hch HH HW HK Hfl size.
  destruct (scale_size_own (rows (Image.bitmap v)) (cols (Image.bitmap v)))
    as [f [Es Hf]]; [exact HH | lia|].
  assert (Hr0 : (0 < rows (Image.bitmap v))%nat) by lia.
  assert (Hc0 : (0 < cols (Image.bitmap v))%nat) by lia.
  destruct (@scale_returns v size (Num f)
              (Z.of_nat (rows (Image.bitmap v)))
              (Z.of_nat (cols (Image.bitmap v))) Hv Hch Hr0 Hc0 Es)
    as [v' [Ev [Hs _]]]; try lia.
  destruct (scale_inv _ _ Ev) as [f0 [ns [b [d [m [Es0 [_ [_ [_ Ev']]]]]]]]].
  unfold Image.shape in Es0. fold size in Es. rewrite Es in Es0.
  apply Ok_inj in Es0. injection Es0 as <- <-.
  destruct (cast_floating_unit _ f Hfl Hf) as [fq [Efq Hfq]].
  destruct (floating_consts _ Hfl) as [Ho [iq [Hi Hiq]]].
  exists (Num f), v'.
  split; [exact Es|]. split; [exact Hf|]. split; [exact Ev|]. split.
  { unfold Image.shape. injection Hs as Hr Hcl. f_equal; lia. }
  rewrite Ev'. cbn [Image.K mval mdtype]. split; [reflexivity|].
  unfold Image.K_scaler. rewrite Efq, Ho, Hi, HK.
  change (Num fq, zero, Num fq, (zero, Num fq, Num fq),
          (zero, zero, Num iq))
    with (QAlg.inj_mat ((fq, 0, fq), (0, fq, fq), (0, 0, iq))%Q).
  rewrite mm_inj.
  destruct Kq as [[[[k00 k01] k02] [[k10 k11] k12]] [[k20 k21] k22]].
  cbn [QAlg.qmm QAlg.qtranspose QAlg.qdot QAlg.qvadd QAlg.inj_mat QAlg.inj
       mat_to vec_to Spec.same_mat Spec.same_vec].
  repeat split; apply cast_same; cbn [Float.same]; rewrite ?Hfq, ?Hiq; ring.
Qed.

Lemma scale_to_own_shape_witness :
  exists f v',
    Image.scale_size (Image.shape Examples.view22) (2, 2)%Z
    = Ok (f, (2, 2)%Z)
    /\ Float.same f one
    /\ Image.scale Examples.view22 (2, 2)%Z = Ok v'
    /\ Image.shape v' = Image.shape Examples.view22
    /\ mdtype (Image.K v') = mdtype (Image.K Examples.view22)
    /\ Spec.same_mat
         (mat_to (mdtype (Image.K Examples.view22)) (mval (Image.K v')))
         (mat_to (mdtype (Image.K Examples.view22))
            (QAlg.inj_mat ((2, 0, 2), (0, 2, 2), (0, 0, 1))%Q)).
Proof.
  apply (scale_to_own_shape Examples.view22
           ((2, 0, 1), (0, 2, 1), (0, 0, 1))%Q view22_valid);
    try reflexivity; try (simpl; lia).
  left. reflexivity.
Defined.
